(** * Iavra Localization: the core plugin and the options-menu plugin

    A shallow embedding of the two RPG Maker MV plugins
    [Iavra Localization - Core] and [Iavra Localization - Menu], and the
    properties of the flattener, the escape-code pattern, the resolver, the
    [language] property and the menu's cycling helpers.

    The definitions come first: the fragment of JavaScript both plugins rely
    on, one module per plugin, sample configurations and the vocabulary of
    the properties.  The lemmas and theorems follow. *)

From Equations Require Import Equations.
From Stdlib Require Import String Ascii List ZArith Lia Bool DecimalString.
Import ListNotations.
Open Scope string_scope.

(* ===================================================================== *)
(** * The JavaScript fragment used by the plugins                         *)
(* ===================================================================== *)

Module JS.

(** Values whose [typeof] is ['boolean'], ['number'] or ['string'].  A number
    is modelled by the integer it denotes; fractions and integers beyond the
    exactly representable range are outside the model. *)
Inductive scalar : Type :=
| SBool (b : bool)
| SNum (n : Z)
| SStr (s : string).

(** Runtime values that the plugins pass around: a property read yields
    [undefined], a scalar, a built-in function or a plain object. *)
Inductive value : Type :=
| VUndefined
| VNull
| VScalar (v : scalar)
| VFunction (name : string)
| VObject.

(** A parsed JSON document ([JSON.parse]).  The properties of an object are
    listed in the order in which [for ... in] enumerates them.  [typeof] is
    ['object'] for [null], arrays and objects, and is not for a [JLeaf]. *)
Unset Elimination Schemes.
Inductive json : Type :=
| JNull
| JLeaf (v : scalar)
| JArr (items : list json)
| JObj (props : list (string * json)).
Set Elimination Schemes.

(** Decimal rendering of array indices and of integral numbers. *)
Definition index_key (i : nat) : string := NilEmpty.string_of_uint (Nat.to_uint i).

Definition number_to_string (n : Z) : string := NilZero.string_of_int (Z.to_int n).

(** [ToString]: the conversion applied by [String.prototype.replace] to the
    result of its callback, by ['' + text] and by property-key coercion.  The
    text of a built-in function is the one V8 prints. *)
Definition ToString (v : value) : string :=
  match v with
  | VUndefined => "undefined"
  | VNull => "null"
  | VScalar (SBool true) => "true"
  | VScalar (SBool false) => "false"
  | VScalar (SNum n) => number_to_string n
  | VScalar (SStr s) => s
  | VFunction name => "function " ++ name ++ "() { [native code] }"
  | VObject => "[object Object]"
  end.

(** ** Objects

    The own properties of an object, in insertion order.  ([for ... in] visits
    integer-like keys first; no property read depends on the order.) *)
Definition object (A : Type) : Type := list (string * A).

Fixpoint own {A : Type} (o : object A) (k : string) : option A :=
  match o with
  | [] => None
  | (k', v) :: o' => if k' =? k then Some v else own o' k
  end.

(** Plain property write: overwrite in place or append. *)
Fixpoint put {A : Type} (o : object A) (k : string) (v : A) : object A :=
  match o with
  | [] => [(k, v)]
  | (k', v') :: o' => if k' =? k then (k, v) :: o' else (k', v') :: put o' k v
  end.

(** An object created by the literal [{}] inherits from [Object.prototype].
    The flat tables are such objects and only ever store scalars. *)
Definition table : Type := object scalar.

(** [object[k] = v] for a scalar [v]: the key ["__proto__"] reaches the
    inherited setter, which ignores every value that is neither an object nor
    [null]. *)
Definition obj_set (t : table) (k : string) (v : scalar) : table :=
  if k =? "__proto__" then t else put t k v.

(** The methods of [Object.prototype]; each is a function of the same name. *)
Definition Object_prototype_methods : list string :=
  [ "__defineGetter__"; "__defineSetter__"; "__lookupGetter__";
    "__lookupSetter__"; "hasOwnProperty"; "isPrototypeOf";
    "propertyIsEnumerable"; "toLocaleString"; "toString"; "valueOf" ].

(** A property read that falls through to [Object.prototype]. *)
Definition Object_prototype (k : string) : value :=
  if k =? "__proto__" then VObject
  else if k =? "constructor" then VFunction "Object"
  else if existsb (String.eqb k) Object_prototype_methods then VFunction k
  else VUndefined.

(** [object[k]]: own property first, then the prototype. *)
Definition obj_get (t : table) (k : string) : value :=
  match own t k with
  | Some v => VScalar v
  | None => Object_prototype k
  end.

(** ** Arrays of strings *)

(** Strict equality of a value with a string element. *)
Definition strict_eq (v : value) (s : string) : bool :=
  match v with
  | VScalar (SStr s') => s' =? s
  | _ => false
  end.

(** [array.indexOf(v)]: first index holding [v], or [-1]. *)
Fixpoint indexOf (l : list string) (v : value) : Z :=
  match l with
  | [] => (-1)%Z
  | s :: l' =>
      if strict_eq v s then 0%Z
      else let i := indexOf l' v in if (i <? 0)%Z then (-1)%Z else (i + 1)%Z
  end.

(** [array.contains(v)], the engine's extension: [indexOf(v) >= 0]. *)
Definition contains (l : list string) (v : value) : bool := (0 <=? indexOf l v)%Z.

(** [array[i]]: [undefined] outside the array. *)
Definition array_get (l : list string) (i : Z) : value :=
  if (i <? 0)%Z then VUndefined
  else match nth_error l (Z.to_nat i) with
       | Some s => VScalar (SStr s)
       | None => VUndefined
       end.

(** ** Completions

    A call returns, throws, or is still running when the bound on loop
    iterations of the model is reached. *)
Inductive error : Type := TypeError.

Inductive completion (A : Type) : Type :=
| Normal (a : A)
| Throw (e : error)
| OutOfFuel.

Arguments Normal {A} a.
Arguments Throw {A} e.
Arguments OutOfFuel {A}.

Definition bind {A B : Type} (c : completion A) (k : A -> completion B) : completion B :=
  match c with
  | Normal a => k a
  | Throw e => Throw e
  | OutOfFuel => OutOfFuel
  end.

Notation "x <- c ;; k" := (bind c (fun x => k))
  (at level 61, c at next level, right associativity).
Notation "' p <- c ;; k" := (bind c (fun x => let p := x in k))
  (at level 61, p pattern, c at next level, right associativity).

(** ** The escape-code pattern

    [new RegExp(prefix + '([\\w\\.]+?)' + suffix, 'g')] where every character
    of [prefix] and [suffix] is literal. *)
Record pattern : Type := { prefix : string; suffix : string }.

(** [\w]: ASCII letters, digits and the underscore. *)
Definition is_word_char (c : ascii) : bool :=
  let n := nat_of_ascii c in
  (((48 <=? n) && (n <=? 57)) || ((65 <=? n) && (n <=? 90)) ||
   ((97 <=? n) && (n <=? 122)) || (n =? 95))%nat.

(** [[\w\.]] *)
Definition is_key_char (c : ascii) : bool := is_word_char c || Ascii.eqb c ".".

(** The strings that [[\w\.]+] can capture, and the escape code for a key. *)
Fixpoint all_key_chars (k : string) : bool :=
  match k with
  | EmptyString => true
  | String c k' => is_key_char c && all_key_chars k'
  end.

Definition is_key (k : string) : bool := negb (k =? EmptyString) && all_key_chars k.

Definition token (p : pattern) (k : string) : string := prefix p ++ k ++ suffix p.

(** Match the literal [lit] at the start of [s]; the rest of [s] on success. *)
Fixpoint strip_prefix (lit s : string) : option string :=
  match lit, s with
  | EmptyString, _ => Some s
  | String a lit', String b s' => if Ascii.eqb a b then strip_prefix lit' s' else None
  | String _ _, EmptyString => None
  end.

(** [([\w\.]+?)suffix] at the start of [s]: the lazy quantifier takes one key
    character, tries the suffix, and only on failure takes one more. *)
Fixpoint match_key (suffix s : string) : option (string * string) :=
  match s with
  | EmptyString => None
  | String c s' =>
      if is_key_char c then
        match strip_prefix suffix s' with
        | Some rest => Some (String c EmptyString, rest)
        | None =>
            match match_key suffix s' with
            | Some (k, rest) => Some (String c k, rest)
            | None => None
            end
        end
      else None
  end.

(** The whole pattern at the start of [s]: captured key and remaining text. *)
Definition match_at (p : pattern) (s : string) : option (string * string) :=
  match strip_prefix (prefix p) s with
  | Some s1 => match_key (suffix p) s1
  | None => None
  end.

Lemma strip_prefix_length lit s r :
  strip_prefix lit s = Some r -> String.length r <= String.length s.
Proof.
  revert s; induction lit as [|a lit IH]; intros [|b s]; simpl; try congruence.
  - intros [= <-]; simpl; lia.
  - intros [= <-]; simpl; lia.
  - destruct (Ascii.eqb a b); [|congruence]. intros H%IH. lia.
Qed.

Lemma match_key_length suffix s k r :
  match_key suffix s = Some (k, r) -> String.length r < String.length s.
Proof.
  revert k r; induction s as [|c s IH]; simpl; intros k r; [congruence|].
  destruct (is_key_char c); [|congruence].
  destruct (strip_prefix suffix s) eqn:E.
  - intros [= <- <-]. apply strip_prefix_length in E. lia.
  - destruct (match_key suffix s) as [[k' r']|]; [|congruence].
    intros [= <- <-]. specialize (IH _ _ eq_refl). lia.
Qed.

Lemma match_at_length p s k r :
  match_at p s = Some (k, r) -> String.length r < String.length s.
Proof.
  unfold match_at. destruct (strip_prefix (prefix p) s) eqn:E; [|congruence].
  intros H%match_key_length. apply strip_prefix_length in E. lia.
Qed.

(** One global scan of a string: the matches found from left to right, each
    with its captured key, and the characters between them. *)
Inductive piece : Type :=
| Char (c : ascii)
| Match (k : string).

Definition inspect {A : Type} (a : A) : {b : A | a = b} := exist _ a eq_refl.

Equations? scan (p : pattern) (s : string) : list piece by wf (String.length s) lt :=
  scan p EmptyString := [];
  scan p (String c s') with inspect (match_at p (String c s')) := {
    | exist _ (Some (k, rest)) H := Match k :: scan p rest;
    | exist _ None _ := Char c :: scan p s' }.
Proof.
  apply match_at_length in H. exact H.
Qed.

(** The keys captured by one scan, in order. *)
Fixpoint matches_of (ps : list piece) : list string :=
  match ps with
  | [] => []
  | Char _ :: ps' => matches_of ps'
  | Match k :: ps' => k :: matches_of ps'
  end.

Definition matches (p : pattern) (s : string) : list string := matches_of (scan p s).

(** [s.replace(regex, fn)] with a global regex.  The callback reads and writes
    the enclosing function's flag, which is threaded through; its result is
    converted with [ToString]. *)
Fixpoint replace_pieces (fn : string -> bool -> completion (value * bool))
    (ps : list piece) (f : bool) : completion (string * bool) :=
  match ps with
  | [] => Normal (EmptyString, f)
  | Char c :: ps' =>
      '(r, f') <- replace_pieces fn ps' f ;;
      Normal (String c r, f')
  | Match k :: ps' =>
      '(v, f1) <- fn k f ;;
      '(r, f2) <- replace_pieces fn ps' f1 ;;
      Normal (ToString v ++ r, f2)
  end.

Definition String_replace (p : pattern)
    (fn : string -> bool -> completion (value * bool))
    (s : string) (f : bool) : completion (string * bool) :=
  replace_pieces fn (scan p s) f.

(** ** [String.prototype.split] with the regex [/\s*,\s*/]

    Strings are sequences of code units below 256; of these, [\s] holds the
    tab, the line feed, the vertical tab, the form feed, the carriage return,
    the space and the no-break space. *)
Definition is_space (c : ascii) : bool :=
  let n := nat_of_ascii c in
  (((9 <=? n) && (n <=? 13)) || (n =? 32) || (n =? 160))%nat.

(** Greedy [\s*]. *)
Fixpoint skip_space (s : string) : string :=
  match s with
  | EmptyString => EmptyString
  | String c s' => if is_space c then skip_space s' else s
  end.

(** [\s*,\s*] at the start of [s]: the text after the separator.  Both stars
    are greedy, and since no whitespace is a comma the first one cannot give
    back a character. *)
Definition separator_at (s : string) : option string :=
  match skip_space s with
  | String c rest => if Ascii.eqb c "," then Some (skip_space rest) else None
  | EmptyString => None
  end.

Lemma skip_space_length s : String.length (skip_space s) <= String.length s.
Proof.
  induction s as [|c s IH]; simpl; [lia|]. destruct (is_space c); simpl; lia.
Qed.

Lemma separator_at_length s rest :
  separator_at s = Some rest -> String.length rest < String.length s.
Proof.
  unfold separator_at. pose proof (skip_space_length s) as H.
  destruct (skip_space s) as [|c r]; [discriminate|].
  destruct (Ascii.eqb c ","); [|discriminate]. intros [= <-].
  pose proof (skip_space_length r). simpl in H. lia.
Qed.

(** The loop of [split]: [piece] holds the characters since the last
    separator; at each position the separator is tried, and on failure the
    character joins the piece. *)
Equations? split_loop (s : string) (piece : string) : list string
  by wf (String.length s) lt :=
  split_loop EmptyString piece := [piece];
  split_loop (String c s') piece with inspect (separator_at (String c s')) := {
    | exist _ (Some rest) H := piece :: split_loop rest EmptyString;
    | exist _ None _ := split_loop s' (piece ++ String c EmptyString) }.
Proof.
  apply separator_at_length in H. exact H.
Qed.

Definition split_commas (s : string) : list string := split_loop s EmptyString.

(** ** [String.prototype.split] with a one-character string separator *)
Fixpoint split_char (sep : ascii) (s : string) (piece : string) : list string :=
  match s with
  | EmptyString => [piece]
  | String c s' =>
      if Ascii.eqb c sep then piece :: split_char sep s' EmptyString
      else split_char sep s' (piece ++ String c EmptyString)
  end.

(** ** [String.prototype.replace] with a string pattern and a string
    replacement

    The first occurrence of the pattern is replaced.  In the replacement,
    [$$] stands for a dollar, [$&] for the matched text, [$`] for the text
    before the match and [$'] for the text after it; without capture groups
    every other dollar is literal. *)
Fixpoint split_first (needle s : string) : option (string * string) :=
  match strip_prefix needle s with
  | Some rest => Some (EmptyString, rest)
  | None =>
      match s with
      | EmptyString => None
      | String c s' =>
          match split_first needle s' with
          | Some (a, b) => Some (String c a, b)
          | None => None
          end
      end
  end.

Fixpoint substitution (matched before after replacement : string) : string :=
  match replacement with
  | EmptyString => EmptyString
  | String c r =>
      if Ascii.eqb c "$" then
        match r with
        | String d r' =>
            if Ascii.eqb d "$" then String "$" (substitution matched before after r')
            else if Ascii.eqb d "&" then matched ++ substitution matched before after r'
            else if Ascii.eqb d "`" then before ++ substitution matched before after r'
            else if Ascii.eqb d "'" then after ++ substitution matched before after r'
            else String c (substitution matched before after r)
        | EmptyString => String c EmptyString
        end
      else String c (substitution matched before after r)
  end.

Definition replace_first (s pattern replacement : string) : string :=
  match split_first pattern s with
  | Some (before, after) => before ++ substitution pattern before after replacement ++ after
  | None => s
  end.

End JS.

(* ===================================================================== *)
(** * Iavra Localization - Core                                           *)
(* ===================================================================== *)

Module Core.
Import JS.

(** ** The escape code

    [_regex] is built from the plugin parameter by escaping every regex
    metacharacter and then replacing the first escaped placeholder by the
    capture group.  Escaping maps each character to itself or to a pair that
    starts with a backslash, so the first escaped placeholder sits where the
    first ["{key}"] of the parameter does, and the pattern is the literal text
    before it, the group, and the literal text after it.  A parameter without
    the placeholder yields a regex without a group and is outside the model. *)
Fixpoint split_placeholder (s : string) : option (string * string) :=
  match strip_prefix "{key}" s with
  | Some rest => Some (EmptyString, rest)
  | None =>
      match s with
      | EmptyString => None
      | String c s' =>
          match split_placeholder s' with
          | Some (a, b) => Some (String c a, b)
          | None => None
          end
      end
  end.

Definition compile (_param_escape : string) : option pattern :=
  match split_placeholder _param_escape with
  | Some (a, b) => Some {| prefix := a; suffix := b |}
  | None => None
  end.

(** ** [_flatten] *)

(** The body of the loop [for(var key in object)], where [temp] stands for
    [_flatten(value)]; only a [JLeaf] has a [typeof] other than ['object']. *)
Definition flatten_entry (result : table) (key : string) (value : json) (temp : table) : table :=
  match value with
  | JLeaf v => obj_set result key v
  | _ => fold_left (fun result x => obj_set result (key ++ "." ++ fst x) (snd x)) temp result
  end.

(** [_flatten] is called on a parsed language file and, from there, only on
    values whose [typeof] is ['object'].  [for ... in] visits the keys of an
    object and the indices of an array (the prototypes of objects and arrays
    hold no enumerable property); [null] has nothing to enumerate.  A
    file whose root is a scalar is outside the model ([for ... in] over a
    boxed primitive also visits what the engine adds to the prototypes); it is
    given the empty table, and no property below is about it. *)
Fixpoint _flatten (object : json) : table :=
  match object with
  | JNull => []
  | JLeaf _ => []
  | JArr items =>
      (fix loop (items : list json) (i : nat) (result : table) : table :=
         match items with
         | [] => result
         | value :: rest =>
             loop rest (S i) (flatten_entry result (index_key i) value (_flatten value))
         end) items 0 []
  | JObj props =>
      (fix loop (props : list (string * json)) (result : table) : table :=
         match props with
         | [] => result
         | (key, value) :: rest =>
             loop rest (flatten_entry result key value (_flatten value))
         end) props []
  end.

(** ** The plugin state *)

Record state : Type := {
  _lang : value;                          (* the current language *)
  _data : object (option table);          (* null-prototype map: language -> null or table *)
  dataSystem : option value;              (* [$dataSystem.gameTitle], once [$dataSystem] is set *)
  document_title : string                 (* [document.title] *)
}.

Definition with_lang (st : state) (l : value) : state :=
  {| _lang := l; _data := _data st; dataSystem := dataSystem st;
     document_title := document_title st |}.

Definition with_data (st : state) (d : object (option table)) : state :=
  {| _lang := _lang st; _data := d; dataSystem := dataSystem st;
     document_title := document_title st |}.

Definition with_title (st : state) (t : string) : state :=
  {| _lang := _lang st; _data := _data st; dataSystem := dataSystem st;
     document_title := t |}.

Section Plugin.

(** The plugin parameters, fixed when the plugin is loaded. *)
Variable _regex : pattern.
Variable _param_languages : list string.

(** The state when the plugin has been loaded: the first language is current
    and every language maps to [null]. *)
Definition initial_state : state :=
  {| _lang := array_get _param_languages 0;
     _data := fold_left (fun map lang => put map lang None) _param_languages [];
     dataSystem := None;
     document_title := EmptyString |}.

(** [_initialize]: the requests are sent and the fallback entry is stored;
    [file_loaded] is the callback run for each parsed file. *)
Definition _initialize (st : state) : state :=
  with_data st (put (_data st) (ToString VUndefined) (Some [])).

Definition file_loaded (lang : string) (data : json) (st : state) : state :=
  with_data st (put (_data st) lang (Some (_flatten data))).

(** [!!_data[lang]] for every language: [null] and [undefined] are falsy and
    every object is truthy. *)
Definition _isReady (st : state) : bool :=
  forallb (fun lang => match own (_data st) lang with
                       | Some (Some _) => true
                       | _ => false
                       end) _param_languages.

(** The callback [function(m, k) { f = true; return d[k]; }].  Reading a
    property of [null] or [undefined] throws. *)
Definition callback (d : option (option table)) (k : string) (f : bool)
  : completion (value * bool) :=
  match d with
  | Some (Some t) => Normal (obj_get t k, true)
  | _ => Throw TypeError
  end.

(** [while(f) { f = false; r = r.replace(_regex, callback); }] *)
Fixpoint while_f (fuel : nat) (d : option (option table)) (r : string) : completion string :=
  match fuel with
  | O => OutOfFuel
  | S fuel' =>
      '(r', f) <- String_replace _regex (callback d) r false ;;
      if (f : bool) then while_f fuel' d r' else Normal r'
  end.

Definition _replace (fuel : nat) (st : state) (text : value) : completion value :=
  match text with
  | VUndefined | VNull => Normal text
  | _ =>
      r <- while_f fuel (own (_data st) (ToString (_lang st))) (ToString text) ;;
      Normal (VScalar (SStr r))
  end.

(** [IAVRA.I18N.localize] and [IAVRA.I18N.languages] *)
Definition localize (fuel : nat) (st : state) (text : value) : completion value :=
  _replace fuel st text.

Definition languages : list string := _param_languages.

(** [Scene_Boot.prototype.updateDocumentTitle] *)
Definition updateDocumentTitle (fuel : nat) (st : state) : state * completion unit :=
  match dataSystem st with
  | Some gameTitle =>
      match _replace fuel st gameTitle with
      | Normal title => (with_title st (ToString title), Normal tt)
      | Throw e => (st, Throw e)
      | OutOfFuel => (st, OutOfFuel)
      end
  | None => (st, Normal tt)
  end.

(** The property [IAVRA.I18N.language] *)
Definition get_language (st : state) : value := _lang st.

Definition set_language (fuel : nat) (value : value) (st : state) : state * completion unit :=
  updateDocumentTitle fuel
    (with_lang st (if contains _param_languages value then value
                   else array_get _param_languages 0)).

End Plugin.

(** ** The plugin parameters [Languages] and [File Path] *)

(** [_p['Languages'].split(/\s*,\s*/).filter(function(lang) { return !!lang; })]:
    only the empty string is falsy. *)
Definition parse_languages (param : string) : list string :=
  filter (fun lang => negb (lang =? EmptyString)) (split_commas param).

(** [_param_filePath.replace('{lang}', lang)], the file requested for [lang]. *)
Definition file_url (_param_filePath lang : string) : string :=
  replace_first _param_filePath "{lang}" lang.

(** ** What happens to the plugin state

    The plugin is loaded, then [Scene_Boot.create] runs [_initialize], files
    arrive, the engine sets [$dataSystem] and scripts assign the [language]
    property, in any order. *)
Definition with_dataSystem (st : state) (d : option value) : state :=
  {| _lang := _lang st; _data := _data st; dataSystem := d;
     document_title := document_title st |}.

Inductive event : Type :=
| Initialize
| FileLoaded (lang : string) (data : json)
| DataSystemLoaded (gameTitle : value)
| SetLanguage (value : value).

Section Lifecycle.

Variable _regex : pattern.
Variable _param_languages : list string.

Definition step (fuel : nat) (st : state) (e : event) : state :=
  match e with
  | Initialize => _initialize st
  | FileLoaded lang data => file_loaded lang data st
  | DataSystemLoaded gameTitle => with_dataSystem st (Some gameTitle)
  | SetLanguage value => fst (set_language _regex _param_languages fuel value st)
  end.

Definition run (fuel : nat) (events : list event) : state :=
  fold_left (step fuel) events (initial_state _param_languages).

(** [Scene_Boot.prototype.isReady], given the answer of the aliased method. *)
Definition Scene_Boot_isReady (alias_isReady : bool) (st : state) : bool :=
  _isReady _param_languages st && alias_isReady.

(** [Window_Base.prototype.convertEscapeCharacters], given the aliased
    method. *)
Definition convertEscapeCharacters (alias_convertEscapeCharacters : value -> completion value)
    (fuel : nat) (st : state) (text : value) : completion value :=
  r1 <- _replace _regex fuel st text ;;
  r2 <- alias_convertEscapeCharacters r1 ;;
  _replace _regex fuel st r2.

End Lifecycle.

End Core.

(* ===================================================================== *)
(** * Iavra Localization - Menu                                           *)
(* ===================================================================== *)

Module Menu.
Import JS.

Section Plugin.

(** The core plugin's parameters; [languages] is [IAVRA.I18N.languages()]. *)
Variable _regex : pattern.
Variable languages : list string.

Definition _prevLanguage (language : value) : value :=
  let index := (indexOf languages language + 1)%Z in
  array_get languages
    (if (Z.of_nat (length languages) <=? index)%Z then 0%Z else index).

Definition _nextLanguage (language : value) : value :=
  let index := (indexOf languages language - 1)%Z in
  array_get languages
    (if (index <? 0)%Z then (Z.of_nat (length languages) - 1)%Z else index).

(** [IAVRA.I18N.language = language; return IAVRA.I18N.language;] *)
Definition _applyLanguage (fuel : nat) (language : value) (st : Core.state)
  : Core.state * completion value :=
  let (st', c) := Core.set_language _regex languages fuel language st in
  (st', _ <- c ;; Normal (Core.get_language st')).

End Plugin.

(** ** The plugin parameter [Language Labels] *)

(** [split(/\s*,\s*/).reduce(...)] into an object literal: an entry with
    exactly one colon adds a label. *)
Definition add_label (map : table) (entry : string) : table :=
  match split_char ":" entry EmptyString with
  | [lang; label] => obj_set map lang (SStr label)
  | _ => map
  end.

Definition parse_labels (param : string) : table :=
  fold_left add_label (split_commas param) [].

(** [Window_Options.prototype.statusText] for the symbol ['language']. *)
Definition statusText_language (_param_labelLanguages : table) (value : value) : JS.value :=
  obj_get _param_labelLanguages (ToString value).

(** ** [ConfigManager]

    The core plugin's state together with the local [_language]. *)
Record menu_state : Type := {
  core : Core.state;
  _language : value
}.

Section ConfigManager.

Variable _regex : pattern.
Variable languages : list string.

(** [this.language = _applyLanguage(x)]: nothing is assigned when the call
    does not return. *)
Definition apply_and_store (fuel : nat) (x : value) (ms : menu_state)
  : menu_state * completion value :=
  let (st', c) := _applyLanguage _regex languages fuel x (core ms) in
  match c with
  | Normal l => ({| core := st'; _language := l |}, Normal l)
  | Throw e => ({| core := st'; _language := _language ms |}, Throw e)
  | OutOfFuel => ({| core := st'; _language := _language ms |}, OutOfFuel)
  end.

(** [makeData]: the result is the [language] field of the saved config. *)
Definition makeData (fuel : nat) (ms : menu_state) : menu_state * completion value :=
  apply_and_store fuel (_language ms) ms.

(** [applyData(config)], given [config.language]. *)
Definition applyData (fuel : nat) (config_language : value) (ms : menu_state)
  : menu_state * completion value :=
  apply_and_store fuel config_language ms.

End ConfigManager.

End Menu.

(* ===================================================================== *)
(** * Sample configurations                                               *)
(* ===================================================================== *)

Module Samples.
Import JS.

(** The default escape code [#{{key}}] and its pattern. *)
Definition escape_default : string := "#{{key}}".

Definition regex_default : pattern := {| prefix := "#{"; suffix := "}" |}.

(** The language file of the plugin's help text, extended with a greeting. *)
Definition doc_harold : json :=
  JObj [ ("text", JObj [ ("test", JLeaf (SStr "This is a test")) ]);
         ("hero", JLeaf (SStr "Harold"));
         ("greet", JLeaf (SStr "Hi, I'm #{hero}")) ].

Definition table_harold : table :=
  [ ("text.test", SStr "This is a test");
    ("hero", SStr "Harold");
    ("greet", SStr "Hi, I'm #{hero}") ].

(** One language, [en]: before and after its file has arrived. *)
Definition st_unloaded : Core.state := Core._initialize (Core.initial_state ["en"]).

Definition st_harold : Core.state := Core.file_loaded "en" doc_harold st_unloaded.

(** The document of the plugin's help text for arrays. *)
Definition doc_list : json := JObj [ ("list", JArr [ JLeaf (SStr "A"); JLeaf (SStr "B") ]) ].




End Samples.

(* ===================================================================== *)
(** * Vocabulary of the properties                                        *)
(* ===================================================================== *)

Import JS.

(** ** Languages *)

(** [v] is one of the configured identifiers. *)
Definition configured (langs : list string) (v : value) : Prop :=
  exists s, v = VScalar (SStr s) /\ In s langs.

(** The default language: the first configured one, if any. *)
Definition default_language (langs : list string) : value :=
  match langs with
  | [] => VUndefined
  | l :: _ => VScalar (SStr l)
  end.

(** ** Documents and their leaves *)

(** The entries of a node that [for ... in] visits, in order. *)
Fixpoint index_from (i : nat) (items : list json) : list (string * json) :=
  match items with
  | [] => []
  | x :: rest => (index_key i, x) :: index_from (S i) rest
  end.

Definition children (d : json) : list (string * json) :=
  match d with
  | JObj props => props
  | JArr items => index_from 0 items
  | _ => []
  end.

(** [typeof d !== 'object'] *)
Definition is_leaf (d : json) : bool :=
  match d with JLeaf _ => true | _ => false end.

(** The leaves of a document with their paths, in the order of the visit:
    each key of an object and each index of an array adds a segment. *)
Definition under (key : string) (leaf : list string * scalar) : list string * scalar :=
  (key :: fst leaf, snd leaf).

Fixpoint leaves (d : json) : list (list string * scalar) :=
  match d with
  | JNull => []
  | JLeaf v => [([], v)]
  | JArr items =>
      (fix go (items : list json) (i : nat) : list (list string * scalar) :=
         match items with
         | [] => []
         | x :: rest => (map (under (index_key i)) (leaves x) ++ go rest (S i))%list
         end) items 0
  | JObj props =>
      (fix go (props : list (string * json)) : list (list string * scalar) :=
         match props with
         | [] => []
         | (key, x) :: rest => (map (under key) (leaves x) ++ go rest)%list
         end) props
  end.

(** The dotted form [p1.p2...pn] of a path. *)
Definition dotted (path : list string) : string := String.concat "." path.

(** The table holds exactly the dotted paths of the leaves, each with the
    value of its leaf. *)
Definition flatten_invariant (d : json) : Prop :=
  forall k v,
    own (Core._flatten d) k = Some v <->
    exists path, In (path, v) (leaves d) /\ dotted path = k.

(** ** The traversal as a fold over entries *)

(** What one entry of a node contributes to the table of the node. *)
Definition set_entry (result : table) (e : string * scalar) : table :=
  obj_set result (fst e) (snd e).

Definition entries_of (kx : string * json) : list (string * scalar) :=
  match snd kx with
  | JLeaf v => [(fst kx, v)]
  | x => map (fun e => (fst kx ++ "." ++ fst e, snd e)) (Core._flatten x)
  end.

(** A joined key holds a dot, so it is never ["__proto__"]. *)
Fixpoint has_dot (s : string) : bool :=
  match s with
  | EmptyString => false
  | String c s' => Ascii.eqb c "." || has_dot s'
  end.

(** ** Scans and reference chains *)

(** The text that a scan stands for: a match covers the escape code of its
    key. *)
Fixpoint render (p : pattern) (ps : list piece) : string :=
  match ps with
  | [] => EmptyString
  | Char c :: ps' => String c (render p ps')
  | Match k :: ps' => token p k ++ render p ps'
  end.

(** [keys] is a chain of references in the table [t]: the value of each key
    is the escape code of the next one, and the value of the last key is the
    string [final]. *)
Fixpoint reference_chain (p : pattern) (t : table) (keys : list string) (final : string) : Prop :=
  match keys with
  | [] => False
  | [k] => is_key k = true /\ own t k = Some (SStr final)
  | k :: ((k' :: _) as rest) =>
      is_key k = true /\ own t k = Some (SStr (token p k')) /\ reference_chain p t rest final
  end.

(** ** Tables entry by entry *)

(** A scalar stored under the key ["__proto__"] does not reach the table. *)
Definition stored (leaf : list string * scalar) : bool :=
  negb (last (fst leaf) EmptyString =? "__proto__").

(** The leaves that reach the table, as entries, in the order of the visit. *)
Definition flat_entries (d : json) : list (string * scalar) :=
  map (fun leaf => (dotted (fst leaf), snd leaf)) (filter stored (leaves d)).

(** The value of the last entry with key [k]. *)
Definition last_value (entries : list (string * scalar)) (k : string) : option scalar :=
  own (rev entries) k.

(** Lists of entries that agree on the last value for every key. *)
Definition same_last (l l' : list (string * scalar)) : Prop :=
  forall k, last_value l k = last_value l' k.

(** The entries that a write keeps. *)
Definition kept (e : string * scalar) : bool := negb (fst e =? "__proto__").

(** Keys under a common first segment. *)
Definition prefixed (key : string) (e : string * scalar) : string * scalar :=
  (key ++ "." ++ fst e, snd e).

(** ** Files that have arrived *)

(** The document of the most recent file that arrived for [lang]. *)
Fixpoint last_file (events : list Core.event) (lang : string) : option json :=
  match events with
  | [] => None
  | e :: rest =>
      match last_file rest lang, e with
      | Some data, _ => Some data
      | None, Core.FileLoaded l data => if l =? lang then Some data else None
      | None, _ => None
      end
  end.

(** No file arrives for a language that is not configured. *)
Definition requested (langs : list string) (e : Core.event) : Prop :=
  match e with
  | Core.FileLoaded l _ => In l langs
  | _ => True
  end.

(** ** Shapes of parameter texts *)

(** No character of [s] is [c]. *)
Fixpoint lacks (c : ascii) (s : string) : bool :=
  match s with
  | EmptyString => true
  | String c' s' => negb (Ascii.eqb c' c) && lacks c s'
  end.

(** Only whitespace. *)
Fixpoint all_space (s : string) : bool :=
  match s with
  | EmptyString => true
  | String c s' => is_space c && all_space s'
  end.

(** Not empty, no comma, and the last character is not whitespace. *)
Fixpoint tail_ok (s : string) : bool :=
  match s with
  | EmptyString => false
  | String c EmptyString => negb (Ascii.eqb c ",") && negb (is_space c)
  | String c s' => negb (Ascii.eqb c ",") && tail_ok s'
  end.

(** An entry of a comma-separated parameter as one would write it: not
    empty, no comma, no whitespace at either end. *)
Definition well_formed (s : string) : bool :=
  match s with
  | EmptyString => false
  | String c _ => negb (is_space c) && tail_ok s
  end.

(** A separator: a comma with whitespace around it. *)
Definition is_separator (sep : string) : Prop :=
  exists w1 w2, all_space w1 = true /\ all_space w2 = true /\ sep = w1 ++ "," ++ w2.

(** Empty, or starting with a character that is not whitespace. *)
Definition starts_clean (s : string) : bool :=
  match s with
  | EmptyString => true
  | String c _ => negb (is_space c)
  end.

(** How often [c] occurs in [s]. *)
Fixpoint count_char (c : ascii) (s : string) : nat :=
  match s with
  | EmptyString => 0
  | String c' s' => (if Ascii.eqb c' c then 1 else 0) + count_char c s'
  end.

(** The entry [lang:label] of the parameter [Language Labels]. *)
Definition label_entry (pair : string * string) : string := fst pair ++ ":" ++ snd pair.



(** The language that the setter stores for [v]. *)
Definition fallback (langs : list string) (v : value) : value :=
  if contains langs v then v else array_get langs 0.

(* ===================================================================== *)
(** * Properties                                                          *)
(* ===================================================================== *)

(** ** Objects *)

(** Own properties after writes. *)
Lemma own_put {A : Type} (o : object A) k v k' :
  own (put o k v) k' = if k =? k' then Some v else own o k'.
Proof.
  induction o as [|[k0 v0] o IH]; simpl.
  - reflexivity.
  - destruct (String.eqb_spec k0 k) as [->|Hne]; simpl.
    + destruct (k =? k'); reflexivity.
    + destruct (String.eqb_spec k0 k') as [->|Hne'].
      * destruct (String.eqb_spec k k'); congruence.
      * exact IH.
Qed.

Lemma own_In {A : Type} (o : object A) k v : own o k = Some v -> In (k, v) o.
Proof.
  induction o as [|[k0 v0] o IH]; simpl; [discriminate|].
  destruct (String.eqb_spec k0 k) as [->|Hne].
  - intros [= ->]. now left.
  - intros H. right. exact (IH H).
Qed.

Lemma put_keys {A : Type} (o : object A) k v k' :
  In k' (map fst (put o k v)) <-> k' = k \/ In k' (map fst o).
Proof.
  induction o as [|[k0 v0] o IH]; simpl.
  - intuition.
  - destruct (String.eqb_spec k0 k) as [->|Hne]; simpl; [intuition|].
    rewrite IH. intuition.
Qed.

Lemma put_NoDup {A : Type} (o : object A) k v :
  NoDup (map fst o) -> NoDup (map fst (put o k v)).
Proof.
  induction o as [|[k0 v0] o IH]; simpl; intros Hnd.
  - constructor; [intros []|constructor].
  - inversion Hnd as [|? ? Hnotin Hnd']; subst.
    destruct (String.eqb_spec k0 k) as [->|Hne]; simpl.
    + now constructor.
    + constructor; [|exact (IH Hnd')].
      rewrite put_keys. intros [->|Hin]; [congruence|contradiction].
Qed.

Lemma In_own {A : Type} (o : object A) k v :
  NoDup (map fst o) -> In (k, v) o -> own o k = Some v.
Proof.
  induction o as [|[k0 v0] o IH]; simpl; intros Hnd Hin; [destruct Hin|].
  inversion Hnd as [|? ? Hnotin Hnd']; subst.
  destruct Hin as [[= -> ->]|Hin].
  - now rewrite String.eqb_refl.
  - destruct (String.eqb_spec k0 k) as [->|Hne]; [|exact (IH Hnd' Hin)].
    elim Hnotin. exact (in_map fst _ _ Hin).
Qed.

(** When the plugin has been loaded, every configured language maps to
    [null], and [_initialize] leaves it so unless the language is named
    [undefined]. *)
Lemma configured_starts_unloaded langs lang :
  In lang langs -> own (Core._data (Core.initial_state langs)) lang = Some None.
Proof.
  unfold Core.initial_state. cbn [Core._data].
  assert (H : forall m, In lang langs \/ own m lang = Some None ->
                own (fold_left (fun map l => put map l (@None table)) langs m) lang = Some None).
  { induction langs as [|l langs IH]; simpl; intros m [Hin|Hm]; try (now destruct Hin); try exact Hm.
    - apply IH. rewrite own_put.
      destruct Hin as [->|Hin]; [right; now rewrite String.eqb_refl|now left].
    - apply IH. right. rewrite own_put. destruct (l =? lang); [reflexivity|exact Hm]. }
  intros Hin. apply H. now left.
Qed.

Lemma initialize_keeps_unloaded st lang :
  lang <> "undefined" -> own (Core._data st) lang = Some None ->
  own (Core._data (Core._initialize st)) lang = Some None.
Proof.
  intros Hne H. unfold Core._initialize. cbn [Core._data Core.with_data ToString].
  rewrite own_put. destruct (String.eqb_spec "undefined" lang); [congruence|exact H].
Qed.

(** ** Scanning *)

Lemma scan_empty p : scan p EmptyString = [].
Proof. now simp scan. Qed.

Lemma scan_hit p c s k rest :
  match_at p (String c s) = Some (k, rest) ->
  scan p (String c s) = Match k :: scan p rest.
Proof.
  intros H. simp scan.
  destruct (inspect (match_at p (String c s))) as [[[k' r']|] e]; simp scan.
  - rewrite H in e. injection e as <- <-. reflexivity.
  - congruence.
Qed.

Lemma scan_miss p c s :
  match_at p (String c s) = None ->
  scan p (String c s) = Char c :: scan p s.
Proof.
  intros H. simp scan.
  destruct (inspect (match_at p (String c s))) as [[[k' r']|] e]; simp scan.
  - congruence.
  - reflexivity.
Qed.

(** Induction along the scan: a property of the empty string that is carried
    over a match and over an unmatched character holds of every string. *)
Lemma scan_induction (p : pattern) (P : string -> Prop) :
  P EmptyString ->
  (forall c s k rest, match_at p (String c s) = Some (k, rest) -> P rest -> P (String c s)) ->
  (forall c s, match_at p (String c s) = None -> P s -> P (String c s)) ->
  forall s, P s.
Proof.
  intros H0 Hhit Hmiss s.
  remember (String.length s) as n eqn:En.
  revert s En. induction n as [n IH] using lt_wf_ind. intros [|c s] En.
  - exact H0.
  - destruct (match_at p (String c s)) as [[k rest]|] eqn:E.
    + apply (Hhit _ _ _ _ E). apply (IH (String.length rest)); [|reflexivity].
      apply match_at_length in E. lia.
    + apply (Hmiss _ _ E). apply (IH (String.length s)); [|reflexivity].
      simpl in En. lia.
Qed.

Lemma scan_match p s k rest :
  match_at p s = Some (k, rest) -> scan p s = Match k :: scan p rest.
Proof.
  destruct s as [|c s]; [|apply scan_hit].
  intros H%match_at_length. simpl in H. lia.
Qed.

(** ** One pass of [String.prototype.replace] *)

Section Pass.

Variable p : pattern.

(** Without a match the callback is not called and the string is rebuilt. *)
Lemma replace_no_match s :
  matches p s = [] -> forall fn f, String_replace p fn s f = Normal (s, f).
Proof.
  unfold matches, String_replace.
  induction s as [|c s k rest E IH|c s E IH] using (scan_induction p); intros Hm fn f.
  - rewrite scan_empty. reflexivity.
  - rewrite (scan_hit _ _ _ _ _ E) in Hm. discriminate.
  - rewrite (scan_miss _ _ _ E) in *. simpl in *. rewrite (IH Hm). reflexivity.
Qed.

(** The callback of [_replace] raises the flag at every match and never
    lowers it. *)
Lemma replace_flag d ps f0 r f :
  replace_pieces (Core.callback d) ps f0 = Normal (r, f) ->
  f = match matches_of ps with [] => f0 | _ :: _ => true end.
Proof.
  revert f0 r f. induction ps as [|[c|k] ps IH]; simpl; intros f0 r f H.
  - now injection H as _ <-.
  - destruct (replace_pieces (Core.callback d) ps f0) as [[r' f']| |] eqn:E;
      simpl in H; try discriminate.
    injection H as _ <-. exact (IH _ _ _ E).
  - destruct d as [[t|]|]; simpl in H; try discriminate.
    destruct (replace_pieces (Core.callback (Some (Some t))) ps true) as [[r' f']| |] eqn:E;
      simpl in H; try discriminate.
    injection H as _ <-. apply IH in E. destruct (matches_of ps); exact E.
Qed.

Lemma replace_unflagged d s r :
  String_replace p (Core.callback d) s false = Normal (r, false) ->
  matches p s = [] /\ r = s.
Proof.
  intros H. assert (Hm : matches p s = []).
  { apply replace_flag in H. unfold matches. destruct (matches_of (scan p s)); congruence. }
  split; [exact Hm|]. rewrite (replace_no_match _ Hm) in H. congruence.
Qed.

(** Reading a property of [null] or [undefined] throws at the first match. *)
Lemma replace_unloaded d s f :
  d = None \/ d = Some None ->
  matches p s <> [] ->
  String_replace p (Core.callback d) s f = Throw TypeError.
Proof.
  intros Hd. unfold matches, String_replace.
  induction s as [|c s k rest E IH|c s E IH] using (scan_induction p); intros Hm.
  - rewrite scan_empty in Hm. now elim Hm.
  - rewrite (scan_hit _ _ _ _ _ E). simpl. destruct Hd as [-> | ->]; reflexivity.
  - rewrite (scan_miss _ _ _ E) in *. simpl in *. rewrite (IH Hm). reflexivity.
Qed.

End Pass.

(** ** The substitution loop *)

Section Loop.

Variable _regex : pattern.

Lemma while_f_token_free d s fuel :
  matches _regex s = [] -> Core.while_f _regex (S fuel) d s = Normal s.
Proof.
  intros Hm. simpl. rewrite (replace_no_match _ _ Hm). reflexivity.
Qed.

(** A returned string holds no further match. *)
Lemma while_f_fixpoint d fuel : forall s r,
  Core.while_f _regex fuel d s = Normal r -> matches _regex r = [].
Proof.
  induction fuel as [|fuel IH]; simpl; intros s r H; [discriminate|].
  destruct (String_replace _regex (Core.callback d) s false) as [[r' [|]]| |] eqn:E;
    simpl in H; try discriminate.
  - exact (IH _ _ H).
  - injection H as <-. apply replace_unflagged in E as [Hm ->]. exact Hm.
Qed.

(** More iterations do not change a result that was reached. *)
Lemma while_f_more d fuel : forall s c,
  Core.while_f _regex fuel d s = c -> c <> OutOfFuel ->
  forall n, Core.while_f _regex (fuel + n) d s = c.
Proof.
  induction fuel as [|fuel IH]; simpl; intros s c H Hc n; [congruence|].
  destruct (String_replace _regex (Core.callback d) s false) as [[r' [|]]| |];
    simpl in *; try assumption.
  exact (IH _ _ H Hc n).
Qed.


End Loop.

(** ** Escape codes whose suffix starts outside the key characters *)

Lemma strip_prefix_app lit rest : strip_prefix lit (lit ++ rest) = Some rest.
Proof.
  induction lit as [|a lit IH]; simpl; [now destruct rest|].
  rewrite Ascii.eqb_refl. exact IH.
Qed.

Lemma app_assoc3 (a b c : string) : (a ++ b) ++ c = a ++ b ++ c.
Proof. induction a as [|x a IH]; simpl; [reflexivity|now rewrite IH]. Qed.

Lemma app_empty_r (a : string) : a ++ EmptyString = a.
Proof. induction a as [|x a IH]; simpl; [reflexivity|now rewrite IH]. Qed.

Section Tokens.

Variable p : pattern.
Variables (c : ascii) (suffix' : string).
Hypothesis suffix_shape : suffix p = String c suffix'.
Hypothesis suffix_start : is_key_char c = false.

(** The lazy group stops at the first suffix, which is the one that ends the
    key, since no key character starts a suffix. *)
Lemma match_key_token k rest :
  is_key k = true -> match_key (suffix p) (k ++ suffix p ++ rest) = Some (k, rest).
Proof.
  unfold is_key. destruct k as [|x k]; [discriminate|]. simpl.
  revert x. induction k as [|y k IH]; intros x; simpl.
  - rewrite andb_true_r. intros ->. rewrite strip_prefix_app. reflexivity.
  - intros [Hx Hk]%andb_prop. rewrite Hx.
    specialize (IH y Hk). simpl in IH.
    replace (strip_prefix (suffix p) (String y (k ++ suffix p ++ rest))) with (@None string).
    + rewrite IH. reflexivity.
    + rewrite suffix_shape. simpl.
      destruct (Ascii.eqb_spec c y) as [->|_]; [|reflexivity].
      apply andb_prop in Hk as [Hy _]. congruence.
Qed.

Lemma match_at_token k rest :
  is_key k = true -> match_at p (token p k ++ rest) = Some (k, rest).
Proof.
  intros Hk. unfold match_at, token.
  rewrite !app_assoc3, strip_prefix_app. exact (match_key_token _ _ Hk).
Qed.

Lemma scan_token k rest :
  is_key k = true -> scan p (token p k ++ rest) = Match k :: scan p rest.
Proof. intros Hk. apply scan_match, match_at_token, Hk. Qed.

(** A single escape code is replaced by the property read for its key. *)
Lemma resolve_single_token t k st fuel :
  is_key k = true ->
  own (Core._data st) (ToString (Core._lang st)) = Some (Some t) ->
  matches p (ToString (obj_get t k)) = [] ->
  Core._replace p (2 + fuel) st (VScalar (SStr (token p k)))
    = Normal (VScalar (SStr (ToString (obj_get t k)))).
Proof.
  intros Hk Hd Hm. unfold Core._replace. rewrite Hd.
  cbn [ToString plus Core.while_f]. unfold String_replace at 1.
  rewrite <- (app_empty_r (token p k)), (scan_token _ _ Hk), scan_empty.
  cbn [replace_pieces Core.callback bind]. rewrite app_empty_r.
  rewrite (replace_no_match _ _ Hm). reflexivity.
Qed.

End Tokens.



(** ** The resolver *)

(** A returned value resolves to itself, and a returned string holds no
    further match. *)
Lemma _replace_again p fuel st text r :
  Core._replace p fuel st text = Normal r -> Core._replace p fuel st r = Normal r.
Proof.
  unfold Core._replace at 1.
  assert (H : forall s0,
    (r0 <- Core.while_f p fuel (own (Core._data st) (ToString (Core._lang st))) s0 ;;
     Normal (VScalar (SStr r0))) = Normal r -> Core._replace p fuel st r = Normal r).
  { intros s0. destruct (Core.while_f p fuel _ s0) as [r0| |] eqn:E; cbn [bind]; try discriminate.
    intros [= <-]. destruct fuel as [|n]; [discriminate|].
    unfold Core._replace. cbn [ToString].
    now rewrite (while_f_token_free _ _ _ _ (while_f_fixpoint _ _ _ _ _ E)). }
  destruct text as [| |v|name|]; try apply H; now intros [= <-].
Qed.

Lemma _replace_string_fixpoint p fuel st text s :
  Core._replace p fuel st text = Normal (VScalar (SStr s)) -> matches p s = [].
Proof.
  unfold Core._replace.
  assert (H : forall s0,
    (r0 <- Core.while_f p fuel (own (Core._data st) (ToString (Core._lang st))) s0 ;;
     Normal (VScalar (SStr r0))) = Normal (VScalar (SStr s)) -> matches p s = []).
  { intros s0. destruct (Core.while_f p fuel _ s0) as [r0| |] eqn:E; cbn [bind]; try discriminate.
    intros [= <-]. exact (while_f_fixpoint _ _ _ _ _ E). }
  destruct text as [| |v|name|]; try apply H; discriminate.
Qed.

Section Resolver.

Variable _regex : pattern.

(** C7: for every string [s] in which the compiled pattern finds no match,
    resolving [s] returns [s] unchanged, whatever the state of the registry. *)
Theorem resolve_token_free (s : string) :
  matches _regex s = [] ->
  forall fuel st,
    Core._replace _regex (S fuel) st (VScalar (SStr s)) = Normal (VScalar (SStr s)).
Proof.
  intros Hm fuel st. unfold Core._replace.
  cbn [ToString]. rewrite (while_f_token_free _ _ _ _ Hm). reflexivity.
Qed.


(** C9: for the absent inputs [undefined] and [null] the resolver returns its
    input, whatever the pattern, the active language and the tables. *)
Theorem resolve_absent fuel st :
  Core._replace _regex fuel st VUndefined = Normal VUndefined /\
  Core._replace _regex fuel st VNull = Normal VNull.
Proof. split; reflexivity. Qed.

(** While the active language's entry is [null], a text without a match is
    returned unchanged and a text with a match makes the resolver throw a
    [TypeError]. *)
Lemma replace_null_entry st :
  own (Core._data st) (ToString (Core._lang st)) = Some None ->
  forall fuel s,
    Core._replace _regex (S fuel) st (VScalar (SStr s)) =
      match matches _regex s with
      | [] => Normal (VScalar (SStr s))
      | _ :: _ => Throw TypeError
      end.
Proof.
  intros Hd fuel s. destruct (matches _regex s) as [|k ks] eqn:Hm.
  - unfold Core._replace. cbn [ToString].
    rewrite (while_f_token_free _ _ _ _ Hm). reflexivity.
  - unfold Core._replace. rewrite Hd. cbn [ToString Core.while_f].
    rewrite replace_unloaded; [reflexivity|now right|]. rewrite Hm. discriminate.
Qed.

End Resolver.

Import Samples.

Lemma resolve_token_free_witness :
  Core._replace regex_default 1 st_harold (VScalar (SStr "Hi, I'm Harold"))
    = Normal (VScalar (SStr "Hi, I'm Harold")).
Proof.
  apply (resolve_token_free regex_default "Hi, I'm Harold"). vm_compute. reflexivity.
Defined.



(** C1 (as stated, refuted): [en] is configured and its file has not arrived;
    resolving a text with a token throws, where an empty table would have
    given the text for a missing key. *)
Lemma unloaded_language_throws :
  In "en" (Core.languages ["en"]) /\
  Core._isReady ["en"] st_unloaded = false /\
  Core.get_language st_unloaded = VScalar (SStr "en") /\
  own (Core._data st_unloaded) "en" = Some None /\
  Core._replace regex_default 2 st_unloaded (VScalar (SStr "#{greet}")) = Throw TypeError /\
  Core._replace regex_default 2 (Core.with_data st_unloaded [("en", Some [])])
    (VScalar (SStr "#{greet}")) = Normal (VScalar (SStr "undefined")).
Proof. vm_compute. intuition. Qed.

(** ** The default escape code and the sample language file *)



Ltac with_active_table H :=
  unfold Core._replace; rewrite H; cbn [ToString];
  match goal with
  | |- context [Core.while_f ?p (?n + ?fuel) ?d ?s] =>
      rewrite (while_f_more p d n s (Core.while_f p n d s) eq_refl)
        by (vm_compute; discriminate)
  end; vm_compute; reflexivity.

(** C5: the escape code [#{{key}}] compiles to the pattern with prefix [#{]
    and suffix [}]; the sample file flattens to the three dotted keys; and
    with that table active, [#{greet}] resolves through the nested [#{hero}]
    to [Hi, I'm Harold] and [#{text.test}] to [This is a test]. *)
Theorem harold_example :
  Core.compile escape_default = Some regex_default /\
  Core._flatten doc_harold = table_harold /\
  forall st fuel,
    own (Core._data st) (ToString (Core._lang st)) = Some (Some (Core._flatten doc_harold)) ->
    Core._replace regex_default (3 + fuel) st (VScalar (SStr "#{greet}"))
      = Normal (VScalar (SStr "Hi, I'm Harold")) /\
    Core._replace regex_default (2 + fuel) st (VScalar (SStr "#{text.test}"))
      = Normal (VScalar (SStr "This is a test")).
Proof.
  split; [reflexivity|]. split; [reflexivity|].
  intros st fuel Hd. split; with_active_table Hd.
Qed.

Lemma harold_example_witness :
  Core._replace regex_default 3 st_harold (VScalar (SStr "#{greet}"))
    = Normal (VScalar (SStr "Hi, I'm Harold")) /\
  Core._replace regex_default 2 st_harold (VScalar (SStr "#{text.test}"))
    = Normal (VScalar (SStr "This is a test")).
Proof.
  exact (proj2 (proj2 harold_example) st_harold 0 eq_refl).
Defined.

(** ** Keys that are missing from the table *)

(** A key that is neither in the table nor on [Object.prototype] reads as
    [undefined], and its escape code is replaced by that word. *)
Lemma missing_key_undefined t k st fuel :
  is_key k = true ->
  own (Core._data st) (ToString (Core._lang st)) = Some (Some t) ->
  own t k = None -> Object_prototype k = VUndefined ->
  Core._replace regex_default (2 + fuel) st (VScalar (SStr (token regex_default k)))
    = Normal (VScalar (SStr "undefined")).
Proof.
  intros Hk Hd Hown Hproto.
  assert (Hget : obj_get t k = VUndefined) by (unfold obj_get; now rewrite Hown).
  rewrite (resolve_single_token regex_default "}" "" eq_refl eq_refl t k st fuel Hk Hd);
    rewrite Hget; reflexivity.
Qed.

(** C2 (the code at the failing input): the key [constructor] is captured
    by the pattern; whenever it is not a key of the active table, its escape
    code is replaced by the text of the function inherited from
    [Object.prototype], not by [undefined]. *)
Theorem inherited_key_resolved t st fuel :
  own (Core._data st) (ToString (Core._lang st)) = Some (Some t) ->
  own t "constructor" = None ->
  is_key "constructor" = true /\
  Core._replace regex_default (2 + fuel) st
    (VScalar (SStr (token regex_default "constructor")))
    = Normal (VScalar (SStr "function Object() { [native code] }")).
Proof.
  intros Hd Hown. split; [reflexivity|].
  rewrite (resolve_single_token regex_default "}" "" eq_refl eq_refl t
             "constructor" st fuel eq_refl Hd);
    unfold obj_get; rewrite Hown; reflexivity.
Qed.

Lemma inherited_key_resolved_witness :
  is_key "constructor" = true /\
  Core._replace regex_default 2 st_harold (VScalar (SStr "#{constructor}"))
    = Normal (VScalar (SStr "function Object() { [native code] }")).
Proof.
  exact (inherited_key_resolved table_harold st_harold 0 eq_refl eq_refl).
Defined.

(** ** Arrays of languages *)

Lemma strict_eq_true v s : strict_eq v s = true <-> v = VScalar (SStr s).
Proof.
  destruct v as [| |[b|n|s']|name|]; simpl; try (split; [discriminate|congruence]).
  rewrite String.eqb_eq. split; congruence.
Qed.

Lemma indexOf_range l v : (-1 <= indexOf l v < Z.of_nat (length l))%Z.
Proof.
  induction l as [|s l IH]; simpl length; simpl indexOf; [lia|].
  destruct (strict_eq v s); [lia|].
  destruct (Z.ltb_spec (indexOf l v) 0); lia.
Qed.

Lemma indexOf_found l v :
  (0 <= indexOf l v)%Z -> array_get l (indexOf l v) = v /\ configured l v.
Proof.
  induction l as [|s l IH]; simpl indexOf; [lia|].
  destruct (strict_eq v s) eqn:E.
  - apply strict_eq_true in E. subst v. intros _. split; [reflexivity|].
    exists s. split; [reflexivity|now left].
  - destruct (Z.ltb_spec (indexOf l v) 0) as [Hneg|Hpos]; [lia|]. intros _.
    destruct (IH Hpos) as [Hget (s' & -> & Hin)]. split.
    + unfold array_get in *.
      destruct (Z.ltb_spec (indexOf l (VScalar (SStr s')) + 1) 0); [lia|].
      destruct (Z.ltb_spec (indexOf l (VScalar (SStr s'))) 0); [lia|].
      replace (Z.to_nat (indexOf l (VScalar (SStr s')) + 1))
        with (S (Z.to_nat (indexOf l (VScalar (SStr s'))))) by lia.
      exact Hget.
    + exists s'. split; [reflexivity|now right].
Qed.

Lemma indexOf_missing l v : (indexOf l v < 0)%Z -> ~ configured l v.
Proof.
  induction l as [|s l IH]; simpl indexOf; intros H (s' & -> & Hin).
  - exact Hin.
  - destruct (strict_eq (VScalar (SStr s')) s) eqn:E; [lia|].
    destruct (Z.ltb_spec (indexOf l (VScalar (SStr s'))) 0) as [Hneg|Hpos]; [|lia].
    destruct Hin as [->|Hin].
    + simpl in E. rewrite String.eqb_refl in E. discriminate.
    + apply (IH Hneg). exists s'. now split.
Qed.

Lemma contains_configured l v : contains l v = true <-> configured l v.
Proof.
  unfold contains. destruct (Z.leb_spec 0 (indexOf l v)) as [H|H].
  - split; [intros _; now apply indexOf_found|reflexivity].
  - split; [discriminate|]. intros Hc. now apply indexOf_missing in Hc.
Qed.

Lemma array_get_first l : array_get l 0 = default_language l.
Proof. now destruct l. Qed.

(** ** The [language] property *)

Section Language.

Variable _regex : pattern.
Variable _param_languages : list string.

(** C3 (amended): the setter stores [v] when [v] is one of the configured
    identifiers and the default language otherwise, and leaves the tables
    alone; this happens before the document title is refreshed, so it holds
    however the call completes.  The call completes normally when
    [$dataSystem] is not set, and it throws only if resolving the game title
    with the language just stored throws. *)
Theorem set_language_fallback fuel v st :
  let r := Core.set_language _regex _param_languages fuel v st in
  (configured _param_languages v -> Core.get_language (fst r) = v) /\
  (~ configured _param_languages v ->
     Core.get_language (fst r) = default_language _param_languages) /\
  Core._data (fst r) = Core._data st /\
  (Core.dataSystem st = None -> snd r = Normal tt) /\
  (forall e, snd r = Throw e ->
     exists gameTitle, Core.dataSystem st = Some gameTitle /\
       Core._replace _regex fuel (fst r) gameTitle = Throw e).
Proof.
  cbv zeta. unfold Core.set_language, Core.updateDocumentTitle, Core.get_language.
  set (l := if contains _param_languages v then v else array_get _param_languages 0).
  assert (Hl1 : configured _param_languages v -> l = v).
  { intros H%contains_configured. subst l. now rewrite H. }
  assert (Hl2 : ~ configured _param_languages v -> l = default_language _param_languages).
  { intros H. subst l. destruct (contains _param_languages v) eqn:E.
    - now apply contains_configured in E.
    - apply array_get_first. }
  cbn [Core.dataSystem Core.with_lang].
  destruct (Core.dataSystem st) as [gameTitle|] eqn:Hg.
  - destruct (Core._replace _regex fuel (Core.with_lang st l) gameTitle) as [title|e|] eqn:E;
      cbn [fst snd Core._lang Core._data Core.with_lang Core.with_title];
      repeat split; try assumption; try discriminate.
    intros e' [= <-]. exists gameTitle. now split.
  - cbn [fst snd Core._lang Core._data Core.with_lang]. repeat split; try assumption.
    discriminate.
Qed.

End Language.

Lemma set_language_fallback_witness :
  Core.get_language (fst (Core.set_language regex_default ["en"; "de"] 3 (VScalar (SStr "fr")) st_harold))
    = VScalar (SStr "en").
Proof.
  apply (proj1 (proj2 (set_language_fallback regex_default ["en"; "de"] 3
                         (VScalar (SStr "fr")) st_harold))).
  intros (s & [= <-] & [H|[H|[]]]); discriminate.
Defined.

(** C3 (as stated, refuted): [$dataSystem] is set, the file of [en] has not
    arrived and the game title holds an escape code; setting the language to
    a value that is not configured falls back to [en] and then throws. *)
Lemma set_language_throws :
  let st := {| Core._lang := VScalar (SStr "en");
               Core._data := Core._data st_unloaded;
               Core.dataSystem := Some (VScalar (SStr "#{title}"));
               Core.document_title := "" |} in
  let r := Core.set_language regex_default ["en"] 1 (VScalar (SStr "de")) st in
  Core.get_language (fst r) = VScalar (SStr "en") /\ snd r = Throw TypeError.
Proof. vm_compute. split; reflexivity. Qed.

(** ** The menu's cycling helpers *)

Lemma array_get_nth l j s :
  nth_error l j = Some s -> array_get l (Z.of_nat j) = VScalar (SStr s).
Proof.
  intros H. unfold array_get.
  destruct (Z.ltb_spec (Z.of_nat j) 0); [lia|]. now rewrite Nat2Z.id, H.
Qed.

Lemma array_get_in_range l (i : Z) :
  (0 <= i < Z.of_nat (length l))%Z ->
  exists s, nth_error l (Z.to_nat i) = Some s /\ array_get l i = VScalar (SStr s).
Proof.
  intros Hi. destruct (nth_error l (Z.to_nat i)) as [s|] eqn:E.
  - exists s. split; [reflexivity|].
    rewrite <- (Z2Nat.id i) by lia. now apply array_get_nth.
  - apply nth_error_None in E. lia.
Qed.

Lemma indexOf_nth l : forall j s,
  NoDup l -> nth_error l j = Some s -> indexOf l (VScalar (SStr s)) = Z.of_nat j.
Proof.
  induction l as [|s0 l IH]; intros [|j] s Hnd H; simpl in H; try discriminate.
  - injection H as ->. simpl. now rewrite String.eqb_refl.
  - inversion Hnd as [|? ? Hnotin Hnd']; subst.
    simpl indexOf. destruct (String.eqb_spec s s0) as [->|_].
    + elim Hnotin. exact (nth_error_In _ _ H).
    + rewrite (IH _ _ Hnd' H). destruct (Z.ltb_spec (Z.of_nat j) 0); lia.
Qed.

Section Cycling.

Variable languages : list string.

Lemma prev_of_nth j s t :
  NoDup languages -> nth_error languages j = Some s ->
  nth_error languages (if S j <? length languages then S j else 0)%nat = Some t ->
  Menu._prevLanguage languages (VScalar (SStr s)) = VScalar (SStr t).
Proof.
  intros Hnd Hs Ht. unfold Menu._prevLanguage. rewrite (indexOf_nth _ _ _ Hnd Hs).
  destruct (Nat.ltb_spec (S j) (length languages)) as [Hlt|Hge].
  - destruct (Z.leb_spec (Z.of_nat (length languages)) (Z.of_nat j + 1)); [lia|].
    replace (Z.of_nat j + 1)%Z with (Z.of_nat (S j)) by lia. now apply array_get_nth.
  - destruct (Z.leb_spec (Z.of_nat (length languages)) (Z.of_nat j + 1)); [|lia].
    now apply (array_get_nth _ 0%nat).
Qed.

Lemma next_of_nth j s t :
  NoDup languages -> nth_error languages j = Some s ->
  nth_error languages (if j =? 0 then length languages - 1 else j - 1)%nat = Some t ->
  Menu._nextLanguage languages (VScalar (SStr s)) = VScalar (SStr t).
Proof.
  intros Hnd Hs Ht. unfold Menu._nextLanguage. rewrite (indexOf_nth _ _ _ Hnd Hs).
  assert (Hj : (j < length languages)%nat) by (apply nth_error_Some; congruence).
  destruct (Nat.eqb_spec j 0) as [->|Hpos].
  - cbn [Z.of_nat Z.sub Z.add Z.opp Z.ltb Z.compare].
    replace (Z.of_nat (length languages) - 1)%Z with (Z.of_nat (length languages - 1)) by lia.
    now apply array_get_nth.
  - destruct (Z.ltb_spec (Z.of_nat j - 1) 0); [lia|].
    replace (Z.of_nat j - 1)%Z with (Z.of_nat (j - 1)) by lia. now apply array_get_nth.
Qed.

(** C10 (amended): for a non-empty list of pairwise distinct languages the
    two helpers undo each other on every registered language, and each of
    them returns a registered language for every argument. *)
Theorem cycling_round_trip :
  NoDup languages -> languages <> [] ->
  (forall l, In l languages ->
     Menu._prevLanguage languages (Menu._nextLanguage languages (VScalar (SStr l)))
       = VScalar (SStr l) /\
     Menu._nextLanguage languages (Menu._prevLanguage languages (VScalar (SStr l)))
       = VScalar (SStr l)) /\
  (forall v, configured languages (Menu._prevLanguage languages v) /\
             configured languages (Menu._nextLanguage languages v)).
Proof.
  intros Hnd Hne.
  assert (Hlen : (0 < length languages)%nat) by (destruct languages; [congruence|simpl; lia]).
  split.
  - intros l Hin. apply In_nth_error in Hin as [j Hj].
    assert (Hlt : (j < length languages)%nat) by (apply nth_error_Some; congruence).
    split.
    + set (i := (if j =? 0 then length languages - 1 else j - 1)%nat).
      assert (Hi : (i < length languages)%nat) by (subst i; destruct (Nat.eqb_spec j 0); lia).
      destruct (nth_error languages i) as [t|] eqn:Ht; [|apply nth_error_None in Ht; lia].
      rewrite (next_of_nth _ _ _ Hnd Hj Ht). apply (prev_of_nth i); [exact Hnd|exact Ht|].
      replace (if S i <? length languages then S i else 0)%nat with j; [exact Hj|].
      subst i. destruct (Nat.eqb_spec j 0), (Nat.ltb_spec (S (length languages - 1)) (length languages));
        destruct (Nat.ltb_spec (S (j - 1)) (length languages)); lia.
    + set (i := (if S j <? length languages then S j else 0)%nat).
      assert (Hi : (i < length languages)%nat) by (subst i; destruct (Nat.ltb_spec (S j) (length languages)); lia).
      destruct (nth_error languages i) as [t|] eqn:Ht; [|apply nth_error_None in Ht; lia].
      rewrite (prev_of_nth _ _ _ Hnd Hj Ht). apply (next_of_nth i); [exact Hnd|exact Ht|].
      replace (if i =? 0 then length languages - 1 else i - 1)%nat with j; [exact Hj|].
      subst i. destruct (Nat.ltb_spec (S j) (length languages)); simpl; lia.
  - intros v. pose proof (indexOf_range languages v) as Hr.
    split.
    + unfold Menu._prevLanguage.
      destruct (Z.leb_spec (Z.of_nat (length languages)) (indexOf languages v + 1)).
      * destruct (array_get_in_range languages 0) as (s & Hs & ->); [lia|].
        exists s. split; [reflexivity|exact (nth_error_In _ _ Hs)].
      * destruct (array_get_in_range languages (indexOf languages v + 1)) as (s & Hs & ->); [lia|].
        exists s. split; [reflexivity|exact (nth_error_In _ _ Hs)].
    + unfold Menu._nextLanguage.
      destruct (Z.ltb_spec (indexOf languages v - 1) 0).
      * destruct (array_get_in_range languages (Z.of_nat (length languages) - 1)) as (s & Hs & ->); [lia|].
        exists s. split; [reflexivity|exact (nth_error_In _ _ Hs)].
      * destruct (array_get_in_range languages (indexOf languages v - 1)) as (s & Hs & ->); [lia|].
        exists s. split; [reflexivity|exact (nth_error_In _ _ Hs)].
Qed.

End Cycling.

Lemma cycling_round_trip_witness :
  (forall l, In l ["en"; "de"; "fr"] ->
     Menu._prevLanguage ["en"; "de"; "fr"] (Menu._nextLanguage ["en"; "de"; "fr"] (VScalar (SStr l)))
       = VScalar (SStr l) /\
     Menu._nextLanguage ["en"; "de"; "fr"] (Menu._prevLanguage ["en"; "de"; "fr"] (VScalar (SStr l)))
       = VScalar (SStr l)) /\
  (forall v, configured ["en"; "de"; "fr"] (Menu._prevLanguage ["en"; "de"; "fr"] v) /\
             configured ["en"; "de"; "fr"] (Menu._nextLanguage ["en"; "de"; "fr"] v)).
Proof.
  apply (cycling_round_trip ["en"; "de"; "fr"]).
  - repeat constructor; simpl; intuition discriminate.
  - discriminate.
Defined.

(** C10 (as stated, refuted): the empty list has pairwise distinct entries,
    and both helpers answer [undefined], which is not an entry of it. *)
Lemma cycling_empty_list :
  NoDup (@nil string) /\
  Menu._prevLanguage [] (VScalar (SStr "en")) = VUndefined /\
  Menu._nextLanguage [] (VScalar (SStr "en")) = VUndefined /\
  Menu._prevLanguage [] VUndefined = VUndefined /\
  Menu._nextLanguage [] VUndefined = VUndefined.
Proof. repeat split; constructor. Qed.

(** ** The flattener *)

Lemma json_ind (P : json -> Prop) :
  (forall d, (forall k x, In (k, x) (children d) -> P x) -> P d) ->
  forall d, P d.
Proof.
  intros H. fix SELF 1. intros d. apply H. destruct d as [|v|items|props]; simpl.
  - intros k x [].
  - intros k x [].
  - generalize 0. induction items as [|y items IH]; intros i k x Hin; [destruct Hin|].
    destruct Hin as [[= _ <-]|Hin]; [apply SELF|exact (IH _ _ _ Hin)].
  - induction props as [|[key y] props IH]; intros k x Hin; [destruct Hin|].
    destruct Hin as [[= _ <-]|Hin]; [apply SELF|exact (IH _ _ Hin)].
Qed.

Lemma fold_left_set_map (f : string * scalar -> string * scalar) t r :
  fold_left (fun result x => obj_set result (fst (f x)) (snd (f x))) t r
    = fold_left set_entry (map f t) r.
Proof. revert r. induction t as [|e t IH]; intros r; simpl; [reflexivity|apply IH]. Qed.

Lemma flatten_entry_fold result key x :
  Core.flatten_entry result key x (Core._flatten x)
    = fold_left set_entry (entries_of (key, x)) result.
Proof.
  unfold Core.flatten_entry, entries_of. cbn [fst snd].
  destruct x; try reflexivity;
    apply (fold_left_set_map (fun e => (key ++ "." ++ fst e, snd e))).
Qed.

Lemma fold_left_flat_map {A B C : Type} (f : A -> B -> A) (g : C -> list B) l a :
  fold_left f (flat_map g l) a = fold_left (fun a c => fold_left f (g c) a) l a.
Proof.
  revert a. induction l as [|c l IH]; intros a; simpl; [reflexivity|].
  now rewrite fold_left_app, IH.
Qed.

Lemma flatten_children d :
  is_leaf d = false ->
  Core._flatten d = fold_left set_entry (flat_map entries_of (children d)) [].
Proof.
  intros Hd. rewrite fold_left_flat_map.
  destruct d as [|v|items|props]; try discriminate; try reflexivity; simpl.
  - generalize 0 (@nil (string * scalar)).
    induction items as [|x items IH]; intros i r; simpl; [reflexivity|].
    now rewrite IH, flatten_entry_fold.
  - generalize (@nil (string * scalar)).
    induction props as [|[key x] props IH]; intros r; simpl; [reflexivity|].
    now rewrite IH, flatten_entry_fold.
Qed.

Lemma leaves_children d :
  is_leaf d = false ->
  leaves d = flat_map (fun kx => map (under (fst kx)) (leaves (snd kx))) (children d).
Proof.
  intros Hd. destruct d as [|v|items|props]; try discriminate; try reflexivity; simpl.
  - generalize 0. induction items as [|x items IH]; intros i; simpl; [reflexivity|].
    now rewrite IH.
  - induction props as [|[key x] props IH]; simpl; [reflexivity|]. now rewrite IH.
Qed.

Lemma fold_set_sound es : forall r k v,
  own (fold_left set_entry es r) k = Some v ->
  (In (k, v) es /\ k <> "__proto__") \/ own r k = Some v.
Proof.
  induction es as [|[k0 v0] es IH]; simpl; intros r k v H; [now right|].
  destruct (IH _ _ _ H) as [[Hin Hk]|Hr]; [left; split; [now right|exact Hk]|].
  unfold set_entry, obj_set in Hr. cbn [fst snd] in Hr.
  destruct (String.eqb_spec k0 "__proto__") as [->|Hne]; [now right|].
  rewrite own_put in Hr. destruct (String.eqb_spec k0 k) as [->|Hne'].
  - left. injection Hr as ->. split; [now left|exact Hne].
  - now right.
Qed.

Lemma fold_set_present es : forall r k,
  (exists v, In (k, v) es /\ k <> "__proto__") \/ (exists v, own r k = Some v) ->
  exists v', own (fold_left set_entry es r) k = Some v'.
Proof.
  induction es as [|[k0 v0] es IH]; simpl; intros r k H.
  - destruct H as [(v & [] & _)|H]; exact H.
  - apply IH. unfold set_entry, obj_set. cbn [fst snd].
    destruct H as [(v & [[= -> ->]|Hin] & Hk)|(v & Hr)].
    + right. exists v. destruct (String.eqb_spec k "__proto__"); [contradiction|].
      now rewrite own_put, String.eqb_refl.
    + left. now exists v.
    + right. destruct (String.eqb_spec k0 "__proto__"); [now exists v|].
      rewrite own_put. destruct (k0 =? k); [now exists v0|now exists v].
Qed.

Lemma fold_set_NoDup es : forall r,
  NoDup (map fst r) -> NoDup (map fst (fold_left set_entry es r)).
Proof.
  induction es as [|[k0 v0] es IH]; simpl; intros r Hr; [exact Hr|].
  apply IH. unfold set_entry, obj_set. cbn [fst snd].
  destruct (k0 =? "__proto__"); [exact Hr|now apply put_NoDup].
Qed.

Lemma flatten_NoDup d : is_leaf d = false -> NoDup (map fst (Core._flatten d)).
Proof. intros Hd. rewrite (flatten_children _ Hd). apply fold_set_NoDup. constructor. Qed.

(** Dotted paths. *)
Lemma dotted_cons key path :
  path <> [] -> dotted (key :: path) = key ++ "." ++ dotted path.
Proof. destruct path; [congruence|reflexivity]. Qed.

Lemma has_dot_joined a b : has_dot (a ++ "." ++ b) = true.
Proof. induction a as [|c a IH]; simpl in *; [reflexivity|]. rewrite IH. apply orb_true_r. Qed.

Lemma joined_not_proto a b : a ++ "." ++ b <> "__proto__".
Proof. intros H. pose proof (has_dot_joined a b) as Hd. rewrite H in Hd. discriminate. Qed.

Lemma leaves_under d path v :
  is_leaf d = false -> In (path, v) (leaves d) ->
  exists key x rest,
    In (key, x) (children d) /\ In (rest, v) (leaves x) /\ path = key :: rest.
Proof.
  intros Hd Hin. rewrite (leaves_children _ Hd) in Hin.
  apply in_flat_map in Hin as ([key x] & Hc & Hl). cbn [fst snd] in Hl.
  apply in_map_iff in Hl as ([rest v'] & [= <- <-] & Hl).
  now exists key, x, rest.
Qed.

Lemma leaves_path_nonempty d path v :
  is_leaf d = false -> In (path, v) (leaves d) -> path <> [].
Proof. intros Hd Hin. destruct (leaves_under _ _ _ Hd Hin) as (? & ? & ? & _ & _ & ->). discriminate. Qed.

Lemma leaf_of_child d key x rest v :
  is_leaf d = false -> In (key, x) (children d) -> In (rest, v) (leaves x) ->
  In (key :: rest, v) (leaves d).
Proof.
  intros Hd Hc Hl. rewrite (leaves_children _ Hd).
  apply in_flat_map. exists (key, x). split; [exact Hc|].
  cbn [fst snd]. apply in_map_iff. now exists (rest, v).
Qed.

(** Every entry of the table is the dotted path of a leaf with its value. *)
Lemma flatten_sound : forall d, is_leaf d = false -> forall k v,
  own (Core._flatten d) k = Some v ->
  exists path, In (path, v) (leaves d) /\ dotted path = k.
Proof.
  induction d as [d IH] using json_ind. intros Hd k v H.
  rewrite (flatten_children _ Hd) in H.
  apply fold_set_sound in H as [[Hin _]|H]; [|discriminate].
  apply in_flat_map in Hin as ([key x] & Hc & He).
  unfold entries_of in He. cbn [fst snd] in He.
  destruct (is_leaf x) eqn:Hx.
  - destruct x as [|v0|items|props]; try discriminate.
    destruct He as [[= <- <-]|[]].
    exists [key]. split; [|reflexivity].
    apply (leaf_of_child _ _ _ _ _ Hd Hc). now left.
  - assert (He' : In (k, v) (map (fun e => (key ++ "." ++ fst e, snd e)) (Core._flatten x)))
      by (destruct x; try discriminate; exact He).
    apply in_map_iff in He' as ([k' v'] & [= <- <-] & Hin').
    apply (In_own _ _ _ (flatten_NoDup _ Hx)) in Hin'.
    destruct (IH _ _ Hc Hx _ _ Hin') as (rest & Hl & <-).
    exists (key :: rest). split; [exact (leaf_of_child _ _ _ _ _ Hd Hc Hl)|].
    apply dotted_cons. exact (leaves_path_nonempty _ _ _ Hx Hl).
Qed.

(** Every leaf that does not sit under the key [__proto__] has its dotted
    path in the table. *)
Lemma flatten_present : forall d, is_leaf d = false -> forall path v,
  In (path, v) (leaves d) -> last path EmptyString <> "__proto__" ->
  exists v', own (Core._flatten d) (dotted path) = Some v'.
Proof.
  induction d as [d IH] using json_ind. intros Hd path v Hin Hlast.
  destruct (leaves_under _ _ _ Hd Hin) as (key & x & rest & Hc & Hl & ->).
  rewrite (flatten_children _ Hd). apply fold_set_present. left.
  destruct (is_leaf x) eqn:Hx.
  - destruct x as [|v0|items|props]; try discriminate.
    destruct Hl as [[= <- <-]|[]].
    exists v0. split; [|exact Hlast].
    apply in_flat_map. exists (key, JLeaf v0). split; [exact Hc|now left].
  - pose proof (leaves_path_nonempty _ _ _ Hx Hl) as Hne.
    assert (Hlast' : last rest EmptyString <> "__proto__")
      by (destruct rest; [congruence|exact Hlast]).
    destruct (IH _ _ Hc Hx _ _ Hl Hlast') as (v' & Hv').
    exists v'. rewrite (dotted_cons _ _ Hne). split; [|apply joined_not_proto].
    apply in_flat_map. exists (key, x). split; [exact Hc|].
    unfold entries_of. cbn [fst snd].
    assert (In (key ++ "." ++ dotted rest, v')
              (map (fun e => (key ++ "." ++ fst e, snd e)) (Core._flatten x))).
    { apply in_map_iff. exists (dotted rest, v'). split; [reflexivity|now apply own_In]. }
    destruct x; try discriminate; assumption.
Qed.

Lemma NoDup_map_eq {A B : Type} (f : A -> B) l x y :
  NoDup (map f l) -> In x l -> In y l -> f x = f y -> x = y.
Proof.
  induction l as [|a l IH]; simpl; intros Hnd Hx Hy Hf; [destruct Hx|].
  inversion Hnd as [|? ? Hnotin Hnd']; subst.
  destruct Hx as [->|Hx], Hy as [->|Hy]; try reflexivity.
  - elim Hnotin. rewrite Hf. now apply in_map.
  - elim Hnotin. rewrite <- Hf. now apply in_map.
  - exact (IH Hnd' Hx Hy Hf).
Qed.

(** C4 (amended): for every document whose root is not a scalar, in which
    no two leaves have the same dotted path and no leaf sits under the key
    [__proto__], the table holds exactly the dotted paths of the leaves, each
    with the value of its leaf; array indices count as segments in decimal,
    and the sample array flattens to [list.0] and [list.1]. *)
Theorem flatten_distinct_paths :
  (forall d,
     is_leaf d = false ->
     NoDup (map (fun leaf => dotted (fst leaf)) (leaves d)) ->
     (forall path v, In (path, v) (leaves d) -> last path EmptyString <> "__proto__") ->
     flatten_invariant d) /\
  leaves doc_list = [ (["list"; "0"], SStr "A"); (["list"; "1"], SStr "B") ] /\
  Core._flatten doc_list = [ ("list.0", SStr "A"); ("list.1", SStr "B") ].
Proof.
  split; [|split; reflexivity].
  intros d Hd Hnd Hproto k v. split.
  - apply flatten_sound, Hd.
  - intros (path & Hin & <-).
    destruct (flatten_present _ Hd _ _ Hin (Hproto _ _ Hin)) as (v' & Hv').
    destruct (flatten_sound _ Hd _ _ Hv') as (path' & Hin' & Heq).
    pose proof (NoDup_map_eq (fun leaf => dotted (fst leaf)) _ (path', v') (path, v)
                  Hnd Hin' Hin Heq) as [= _ ->].
    exact Hv'.
Qed.

Lemma flatten_distinct_paths_witness : flatten_invariant doc_harold.
Proof.
  apply (proj1 flatten_distinct_paths).
  - reflexivity.
  - repeat constructor; simpl; intuition discriminate.
  - intros path v [[= <- <-]|[[= <- <-]|[[= <- <-]|[]]]]; discriminate.
Defined.

(** C4 (as stated, refuted): the leaves at the paths [a.b] and [a], [b] have
    the same dotted path; the table keeps the value of the one visited last,
    so the first leaf is not mapped to its value. *)
Lemma flatten_collision :
  let d := JObj [ ("a.b", JLeaf (SNum 1)); ("a", JObj [ ("b", JLeaf (SNum 2)) ]) ] in
  In (["a.b"], SNum 1) (leaves d) /\
  dotted ["a.b"] = "a.b" /\
  own (Core._flatten d) "a.b" = Some (SNum 2) /\
  Core._flatten d = [ ("a.b", SNum 2) ].
Proof. cbv zeta. split; [now left|]. repeat split. Qed.

(* ===================================================================== *)
(** * Further properties                                                  *)
(* ===================================================================== *)

(** ** The pattern *)

Lemma strip_prefix_eq lit : forall s r, strip_prefix lit s = Some r -> s = lit ++ r.
Proof.
  induction lit as [|a lit IH]; intros [|b s] r; simpl; try congruence.
  destruct (Ascii.eqb_spec a b) as [->|_]; [|discriminate].
  intros H. now rewrite (IH _ _ H).
Qed.

Lemma match_key_eq suffix : forall s k r,
  match_key suffix s = Some (k, r) -> s = k ++ suffix ++ r /\ is_key k = true.
Proof.
  induction s as [|c s IH]; simpl; intros k r H; [discriminate|].
  destruct (is_key_char c) eqn:Hc; [|discriminate].
  destruct (strip_prefix suffix s) as [rest|] eqn:E.
  - injection H as <- <-. apply strip_prefix_eq in E. subst s.
    split; [reflexivity|]. unfold is_key. simpl. now rewrite Hc.
  - destruct (match_key suffix s) as [[k' r']|] eqn:E'; [|discriminate].
    injection H as <- <-. destruct (IH _ _ eq_refl) as [-> Hk].
    split; [reflexivity|]. unfold is_key in *. simpl. rewrite Hc. simpl.
    now apply andb_prop in Hk.
Qed.

Lemma match_at_eq p s k r :
  match_at p s = Some (k, r) -> s = token p k ++ r /\ is_key k = true.
Proof.
  unfold match_at, token. destruct (strip_prefix (prefix p) s) as [s1|] eqn:E; [|discriminate].
  intros [-> Hk]%match_key_eq. apply strip_prefix_eq in E. subst s.
  now rewrite !app_assoc3.
Qed.

(** The matches of one scan lie side by side in the text, in order, each
    covering prefix, key and suffix, and each captured key is a non-empty
    string of word characters and dots. *)
Theorem scan_partitions (p : pattern) (s : string) :
  render p (scan p s) = s /\ Forall (fun k => is_key k = true) (matches p s).
Proof.
  unfold matches.
  induction s as [|c s k rest E [IH1 IH2]|c s E [IH1 IH2]] using (scan_induction p).
  - rewrite scan_empty. split; [reflexivity|constructor].
  - rewrite (scan_hit _ _ _ _ _ E). destruct (match_at_eq _ _ _ _ E) as [Hs Hk].
    simpl. rewrite IH1. split; [now rewrite Hs|now constructor].
  - rewrite (scan_miss _ _ _ E). simpl. now rewrite IH1.
Qed.


(** ** The resolver *)

Lemma missing_key_undefined_witness :
  Core._replace regex_default 2 st_harold (VScalar (SStr "#{villain}"))
    = Normal (VScalar (SStr "undefined")).
Proof.
  exact (missing_key_undefined table_harold "villain" st_harold 0
           eq_refl eq_refl eq_refl eq_refl).
Defined.

Lemma replace_pieces_loaded t ps : forall f,
  exists r f', replace_pieces (Core.callback (Some (Some t))) ps f = Normal (r, f').
Proof.
  induction ps as [|[c|k] ps IH]; intros f; simpl.
  - now exists EmptyString, f.
  - destruct (IH f) as (r & f' & ->). simpl. now exists (String c r), f'.
  - destruct (IH true) as (r & f' & ->). simpl. now exists (ToString (obj_get t k) ++ r), f'.
Qed.

Lemma while_f_loaded p t fuel : forall s,
  Core.while_f p fuel (Some (Some t)) s = OutOfFuel \/
  exists r, Core.while_f p fuel (Some (Some t)) s = Normal r.
Proof.
  induction fuel as [|fuel IH]; intros s; simpl; [now left|].
  unfold String_replace.
  destruct (replace_pieces_loaded t (scan p s) false) as (r & [|] & ->); simpl.
  - apply IH.
  - right. now exists r.
Qed.

Lemma _replace_loaded (p : pattern) (st : Core.state) (t : table) :
  own (Core._data st) (ToString (Core._lang st)) = Some (Some t) ->
  forall fuel text,
    Core._replace p fuel st text = OutOfFuel \/
    exists r, Core._replace p fuel st text = Normal r.
Proof.
  intros Hd fuel text. unfold Core._replace. rewrite Hd.
  assert (H : forall s,
    (r <- Core.while_f p fuel (Some (Some t)) s ;; Normal (VScalar (SStr r))) = OutOfFuel \/
    exists v, (r <- Core.while_f p fuel (Some (Some t)) s ;; Normal (VScalar (SStr r))) = Normal v).
  { intros s. destruct (while_f_loaded p t fuel s) as [->|[r ->]]; simpl;
      [now left|right; eexists; reflexivity]. }
  destruct text; try apply H; right; eexists; reflexivity.
Qed.

(** With a table loaded for the active language the resolver never throws:
    it returns, or it is still substituting when the bound is reached. *)
Theorem resolve_loaded_never_throws (p : pattern) (st : Core.state) (t : table) :
  own (Core._data st) (ToString (Core._lang st)) = Some (Some t) ->
  forall fuel text,
    Core._replace p fuel st text = OutOfFuel \/
    exists r, Core._replace p fuel st text = Normal r.
Proof. exact (_replace_loaded p st t). Qed.

Lemma resolve_loaded_never_throws_witness :
  Core._replace regex_default 1 st_harold (VScalar (SStr "#{greet}")) = OutOfFuel \/
  exists r, Core._replace regex_default 1 st_harold (VScalar (SStr "#{greet}")) = Normal r.
Proof.
  exact (resolve_loaded_never_throws regex_default st_harold table_harold eq_refl 1
           (VScalar (SStr "#{greet}"))).
Defined.

Section References.

Variable p : pattern.
Variables (c : ascii) (suffix' : string).
Hypothesis suffix_shape : suffix p = String c suffix'.
Hypothesis suffix_start : is_key_char c = false.

(** One pass over a single escape code. *)
Lemma pass_single_token t k :
  is_key k = true ->
  String_replace p (Core.callback (Some (Some t))) (token p k) false
    = Normal (ToString (obj_get t k), true).
Proof.
  intros Hk. unfold String_replace.
  rewrite <- (app_empty_r (token p k)) at 1.
  rewrite (scan_token p c suffix' suffix_shape suffix_start _ _ Hk), scan_empty.
  cbn [replace_pieces Core.callback bind]. now rewrite app_empty_r.
Qed.

End References.

(** When the suffix of the escape code is non-empty and starts with a
    character that is not a key character, a key whose value is the escape
    code of a key that, in turn, leads back to it is never resolved: whatever
    the bound, the resolver is still substituting.  [cycle] is any set of
    keys, each made of key characters, that is closed under "the value is the
    escape code of"; a key that names itself is the smallest one. *)
Theorem reference_cycle_never_returns (p : pattern) (c : ascii) (suffix' : string) :
  suffix p = String c suffix' -> is_key_char c = false ->
  forall (t : table) (cycle : string -> Prop),
  (forall k, cycle k ->
     is_key k = true /\
     exists k', cycle k' /\ own t k = Some (SStr (token p k'))) ->
  forall st, own (Core._data st) (ToString (Core._lang st)) = Some (Some t) ->
  forall k, cycle k ->
  forall fuel, Core._replace p fuel st (VScalar (SStr (token p k))) = OutOfFuel.
Proof.
  intros suffix_shape suffix_start t cycle Hcycle st Hd k Hk fuel.
  unfold Core._replace. rewrite Hd. cbn [ToString].
  enough (H : Core.while_f p fuel (Some (Some t)) (token p k) = OutOfFuel) by now rewrite H.
  revert k Hk. induction fuel as [|fuel IH]; intros k Hk; [reflexivity|].
  destruct (Hcycle k Hk) as (Hkey & k' & Hk' & Hown).
  cbn [Core.while_f]. rewrite (pass_single_token p c suffix' suffix_shape suffix_start t k Hkey).
  cbn [bind]. unfold obj_get. rewrite Hown. cbn [ToString]. exact (IH k' Hk').
Qed.

(** When the suffix of the escape code is non-empty and starts with a
    character that is not a key character, a chain of references between
    keys made of key characters is followed to its end: if the value of each
    key is the escape code of the next and the value of the last key is a
    string without a match, the escape code of the first key resolves to
    that string, one pass per key and one more to see that nothing is
    left. *)
Theorem reference_chain_resolves (p : pattern) (c : ascii) (suffix' : string) :
  suffix p = String c suffix' -> is_key_char c = false ->
  forall (t : table) (keys : list string) (final : string),
  reference_chain p t keys final ->
  matches p final = [] ->
  forall st fuel,
    own (Core._data st) (ToString (Core._lang st)) = Some (Some t) ->
    Core._replace p (S (length keys) + fuel) st (VScalar (SStr (token p (hd EmptyString keys))))
      = Normal (VScalar (SStr final)).
Proof.
  intros suffix_shape suffix_start t keys final Hchain Hfinal st fuel Hd.
  pose proof (pass_single_token p c suffix' suffix_shape suffix_start t) as Hpass.
  unfold Core._replace. rewrite Hd. cbn [ToString].
  enough (H : Core.while_f p (S (length keys) + fuel) (Some (Some t))
                (token p (hd EmptyString keys)) = Normal final) by now rewrite H.
  clear Hd. induction keys as [|k keys IH]; [destruct Hchain|].
  destruct keys as [|k' keys].
  - destruct Hchain as [Hkey Hown].
    cbn [length plus hd Core.while_f]. rewrite (Hpass k Hkey). cbn [bind].
    unfold obj_get. rewrite Hown. cbn [ToString].
    rewrite (replace_no_match _ _ Hfinal). reflexivity.
  - destruct Hchain as (Hkey & Hown & Hrest).
    change (S (length (k :: k' :: keys)) + fuel) with (S (S (length (k' :: keys)) + fuel)).
    cbn [hd Core.while_f]. rewrite (Hpass k Hkey). cbn [bind].
    unfold obj_get. rewrite Hown. cbn [ToString]. exact (IH Hrest).
Qed.

Lemma reference_cycle_never_returns_witness :
  Core._replace regex_default 7
    (Core.file_loaded "en" (JObj [ ("town", JLeaf (SStr "#{city}")); ("city", JLeaf (SStr "#{town}")) ])
       st_unloaded)
    (VScalar (SStr "#{town}")) = OutOfFuel.
Proof.
  refine (reference_cycle_never_returns regex_default "}" "" eq_refl eq_refl
            [("town", SStr "#{city}"); ("city", SStr "#{town}")]
            (fun k => k = "town" \/ k = "city") _
            (Core.file_loaded "en"
               (JObj [ ("town", JLeaf (SStr "#{city}")); ("city", JLeaf (SStr "#{town}")) ])
               st_unloaded)
            eq_refl "town" (or_introl eq_refl) 7).
  intros k [->| ->]; (split; [reflexivity|]).
  - exists "city". split; [now right|reflexivity].
  - exists "town". split; [now left|reflexivity].
Defined.

Lemma reference_chain_resolves_witness :
  Core._replace regex_default 4
    (Core.file_loaded "en"
       (JObj [ ("a", JLeaf (SStr "#{b}")); ("b", JLeaf (SStr "#{c}")); ("c", JLeaf (SStr "end")) ])
       st_unloaded)
    (VScalar (SStr "#{a}")) = Normal (VScalar (SStr "end")).
Proof.
  refine (reference_chain_resolves regex_default "}" "" eq_refl eq_refl
            [("a", SStr "#{b}"); ("b", SStr "#{c}"); ("c", SStr "end")]
            ["a"; "b"; "c"] "end" _ eq_refl
            (Core.file_loaded "en"
               (JObj [ ("a", JLeaf (SStr "#{b}")); ("b", JLeaf (SStr "#{c}")); ("c", JLeaf (SStr "end")) ])
               st_unloaded)
            0 eq_refl).
  repeat split.
Defined.

(** ** The flattener, collisions included *)

Lemma own_app {A : Type} (l1 l2 : object A) k :
  own (l1 ++ l2)%list k = match own l1 k with Some v => Some v | None => own l2 k end.
Proof.
  induction l1 as [|[k0 v0] l1 IH]; simpl; [reflexivity|].
  destruct (k0 =? k); [reflexivity|exact IH].
Qed.

Lemma own_rev_NoDup {A : Type} (l : object A) k :
  NoDup (map fst l) -> own (rev l) k = own l k.
Proof.
  induction l as [|[k0 v0] l IH]; simpl; intros Hnd; [reflexivity|].
  inversion Hnd as [|? ? Hnotin Hnd']; subst.
  rewrite own_app, (IH Hnd'). simpl.
  destruct (String.eqb_spec k0 k) as [->|Hne].
  - destruct (own l k) as [v|] eqn:E; [|reflexivity].
    elim Hnotin. exact (in_map fst _ _ (own_In _ _ _ E)).
  - now destruct (own l k).
Qed.

Lemma same_last_app l1 l1' l2 l2' :
  same_last l1 l1' -> same_last l2 l2' -> same_last (l1 ++ l2) (l1' ++ l2').
Proof.
  intros H1 H2 k. unfold same_last, last_value in *. rewrite !rev_app_distr, !own_app.
  now rewrite (H1 k), (H2 k).
Qed.

Lemma same_last_flat_map {A : Type} (f g : A -> list (string * scalar)) l :
  (forall a, In a l -> same_last (f a) (g a)) -> same_last (flat_map f l) (flat_map g l).
Proof.
  induction l as [|a l IH]; intros H; simpl; [intros k; reflexivity|].
  apply same_last_app; [apply H; now left|apply IH; intros a' Ha'; apply H; now right].
Qed.

Lemma filter_flat_map {A B : Type} (keep : B -> bool) (f : A -> list B) l :
  filter keep (flat_map f l) = flat_map (fun a => filter keep (f a)) l.
Proof. induction l as [|a l IH]; simpl; [reflexivity|]. now rewrite filter_app, IH. Qed.

Lemma map_flat_map {A B C : Type} (g : B -> C) (f : A -> list B) l :
  map g (flat_map f l) = flat_map (fun a => map g (f a)) l.
Proof. induction l as [|a l IH]; simpl; [reflexivity|]. now rewrite map_app, IH. Qed.

(** The writes of a fold: the last kept entry for a key decides. *)
Lemma fold_set_own es : forall r k,
  own (fold_left set_entry es r) k =
    match last_value (filter kept es) k with
    | Some v => Some v
    | None => own r k
    end.
Proof.
  unfold last_value.
  induction es as [|[k0 v0] es IH]; intros r k; simpl; [reflexivity|].
  rewrite IH. unfold set_entry, obj_set, kept at 2. cbn [fst snd].
  destruct (String.eqb_spec k0 "__proto__") as [->|Hne]; cbn [negb].
  - reflexivity.
  - cbn [rev]. rewrite own_app.
    destruct (own (rev (filter kept es)) k); [reflexivity|].
    rewrite own_put. simpl. now destruct (k0 =? k).
Qed.

Lemma append_inj_l (a x y : string) : a ++ x = a ++ y -> x = y.
Proof. induction a as [|c a IH]; simpl; [trivial|]. intros [= H]. exact (IH H). Qed.

Lemma own_prefixed key l K :
  own (map (prefixed key) l) K =
    match strip_prefix (key ++ ".") K with
    | Some k' => own l k'
    | None => None
    end.
Proof.
  induction l as [|[k0 v0] l IH]; cbn [map own prefixed fst snd].
  - now destruct (strip_prefix (key ++ ".") K).
  - rewrite IH. destruct (strip_prefix (key ++ ".") K) as [k'|] eqn:E.
    + apply strip_prefix_eq in E. subst K. rewrite app_assoc3.
      destruct (String.eqb_spec (key ++ "." ++ k0) (key ++ "." ++ k')) as [Heq|Hne].
      * apply append_inj_l in Heq. injection Heq as ->. now rewrite String.eqb_refl.
      * destruct (String.eqb_spec k0 k') as [->|_]; [congruence|reflexivity].
    + destruct (String.eqb_spec (key ++ "." ++ k0) K) as [<-|_]; [|reflexivity].
      rewrite <- app_assoc3, strip_prefix_app in E. discriminate.
Qed.

Lemma same_last_prefixed key l l' :
  same_last l l' -> same_last (map (prefixed key) l) (map (prefixed key) l').
Proof.
  intros H K. unfold same_last, last_value in *. rewrite <- !map_rev, !own_prefixed.
  destruct (strip_prefix (key ++ ".") K); [apply H|reflexivity].
Qed.

Lemma filter_kept_prefixed key l : filter kept (map (prefixed key) l) = map (prefixed key) l.
Proof.
  induction l as [|[k0 v0] l IH]; simpl; [reflexivity|]. rewrite IH.
  unfold kept at 1. cbn [fst prefixed].
  destruct (String.eqb_spec (key ++ "." ++ k0) "__proto__") as [H|_]; [|reflexivity].
  now apply joined_not_proto in H.
Qed.

Lemma flat_entries_under key x :
  is_leaf x = false ->
  map (fun leaf => (dotted (fst leaf), snd leaf)) (filter stored (map (under key) (leaves x)))
    = map (prefixed key) (flat_entries x).
Proof.
  intros Hx. unfold flat_entries.
  assert (H : forall l, (forall path v, In (path, v) l -> path <> []) ->
    map (fun leaf => (dotted (fst leaf), snd leaf)) (filter stored (map (under key) l))
      = map (prefixed key) (map (fun leaf => (dotted (fst leaf), snd leaf)) (filter stored l))).
  { induction l as [|[path v] l IH]; intros Hne; [reflexivity|].
    assert (Hp : path <> []) by (apply (Hne path v); now left).
    assert (Hs : stored (under key (path, v)) = stored (path, v))
      by (unfold stored, under; cbn [fst snd]; destruct path; [congruence|reflexivity]).
    assert (IH' := IH (fun p' v' Hin => Hne p' v' (or_intror Hin))).
    cbn [map filter]. rewrite Hs.
    destruct (stored (path, v)); cbn [map]; rewrite IH'; [|reflexivity].
    unfold prefixed at 1, under at 1. cbn [fst snd]. now rewrite (dotted_cons _ _ Hp). }
  apply H. intros path v. apply leaves_path_nonempty, Hx.
Qed.

(** The table of every document whose root is not a scalar, collisions
    included: a key is in the table exactly when it is the dotted path of a
    leaf that is not stored under [__proto__], and its value is the value of
    the last such leaf in the order of the visit. *)
Theorem flatten_last_wins : forall d,
  is_leaf d = false ->
  forall k, own (Core._flatten d) k = last_value (flat_entries d) k.
Proof.
  induction d as [d IH] using json_ind. intros Hd k.
  rewrite (flatten_children _ Hd), fold_set_own. cbn [own].
  assert (Hsame : same_last (filter kept (flat_map entries_of (children d))) (flat_entries d)).
  { unfold flat_entries. rewrite (leaves_children _ Hd), !filter_flat_map, map_flat_map.
    apply same_last_flat_map. intros [key x] Hc. cbn [fst snd].
    destruct (is_leaf x) eqn:Hx.
    - destruct x as [|v|items|props]; try discriminate.
      unfold entries_of. cbn [fst snd leaves map filter]. unfold kept, stored, under.
      cbn [fst snd last]. intros k'. now destruct (key =? "__proto__").
    - rewrite (flat_entries_under _ _ Hx).
      replace (entries_of (key, x)) with (map (prefixed key) (Core._flatten x))
        by (unfold entries_of; destruct x; try discriminate; reflexivity).
      rewrite filter_kept_prefixed. apply same_last_prefixed.
      intros k'. unfold last_value at 1.
      rewrite (own_rev_NoDup _ _ (flatten_NoDup _ Hx)). exact (IH _ _ Hc Hx k'). }
  rewrite (Hsame k). now destruct (last_value (flat_entries d) k).
Qed.

Lemma flatten_last_wins_witness :
  own (Core._flatten (JObj [ ("a.b", JLeaf (SNum 1)); ("a", JObj [ ("b", JLeaf (SNum 2)) ]) ])) "a.b"
    = last_value
        (flat_entries (JObj [ ("a.b", JLeaf (SNum 1)); ("a", JObj [ ("b", JLeaf (SNum 2)) ]) ]))
        "a.b".
Proof.
  exact (flatten_last_wins
           (JObj [ ("a.b", JLeaf (SNum 1)); ("a", JObj [ ("b", JLeaf (SNum 2)) ]) ])
           eq_refl "a.b").
Defined.

(** ** The registry over the life of the plugin *)

Section Registry.

Variable _regex : pattern.
Variable _param_languages : list string.

Lemma set_language_state fuel v st :
  let st' := fst (Core.set_language _regex _param_languages fuel v st) in
  Core._lang st' = (if contains _param_languages v then v else array_get _param_languages 0) /\
  Core._data st' = Core._data st /\
  Core.dataSystem st' = Core.dataSystem st.
Proof.
  cbv zeta. unfold Core.set_language, Core.updateDocumentTitle. cbn [Core.dataSystem Core.with_lang].
  destruct (Core.dataSystem st) as [gameTitle|] eqn:Hg;
    [destruct (Core._replace _regex fuel _ gameTitle)|];
    cbn [fst Core._lang Core._data Core.dataSystem Core.with_lang Core.with_title];
    rewrite ?Hg; repeat split; reflexivity.
Qed.

Lemma step_data fuel st e lang :
  own (Core._data (Core.step _regex _param_languages fuel st e)) lang =
    match e with
    | Core.Initialize => if "undefined" =? lang then Some (Some []) else own (Core._data st) lang
    | Core.FileLoaded l data =>
        if l =? lang then Some (Some (Core._flatten data)) else own (Core._data st) lang
    | _ => own (Core._data st) lang
    end.
Proof.
  destruct e as [|l data|gameTitle|v]; cbn [Core.step].
  - unfold Core._initialize. cbn [Core._data Core.with_data ToString]. apply own_put.
  - unfold Core.file_loaded. cbn [Core._data Core.with_data]. apply own_put.
  - reflexivity.
  - now destruct (set_language_state fuel v st) as (_ & -> & _).
Qed.

Lemma run_data fuel events : forall st lang,
  lang <> "undefined" ->
  own (Core._data (fold_left (Core.step _regex _param_languages fuel) events st)) lang =
    match last_file events lang with
    | Some data => Some (Some (Core._flatten data))
    | None => own (Core._data st) lang
    end.
Proof.
  induction events as [|e events IH]; intros st lang Hne; cbn [fold_left last_file]; [reflexivity|].
  rewrite (IH _ _ Hne). destruct (last_file events lang); [reflexivity|].
  rewrite step_data. destruct e as [|l data|gameTitle|v]; try reflexivity.
  - destruct (String.eqb_spec "undefined" lang); [congruence|reflexivity].
  - now destruct (l =? lang).
Qed.

Lemma last_file_arrived events lang :
  last_file events lang <> None <-> exists data, In (Core.FileLoaded lang data) events.
Proof.
  induction events as [|e events IH]; cbn [last_file].
  - split; [congruence|intros [data []]].
  - destruct (last_file events lang) as [d|] eqn:E.
    + split; [|discriminate]. intros _.
      destruct (proj1 IH) as [data Hin]; [discriminate|]. exists data. now right.
    + split.
      * destruct e as [|l data|gameTitle|v]; try congruence.
        destruct (String.eqb_spec l lang) as [->|_]; [|congruence].
        intros _. exists data. now left.
      * intros [data [->|Hin]].
        -- now rewrite String.eqb_refl.
        -- elim (proj2 IH); [exists data; exact Hin|reflexivity].
Qed.

(** The table of a configured language is [null] until its file arrives and
    then the flattened document of the most recent file, whatever else
    happens in between (for a language not named [undefined], whose entry
    [_initialize] uses for the fallback). *)
Theorem table_is_latest_file fuel events lang :
  In lang _param_languages -> lang <> "undefined" ->
  own (Core._data (Core.run _regex _param_languages fuel events)) lang =
    match last_file events lang with
    | Some data => Some (Some (Core._flatten data))
    | None => Some None
    end.
Proof.
  intros Hin Hne. unfold Core.run. rewrite (run_data _ _ _ _ Hne).
  now rewrite (configured_starts_unloaded _ _ Hin).
Qed.

(** [_isReady] answers true exactly when a file has arrived for every
    configured language (none of them named [undefined]). *)
Theorem ready_when_all_files_arrived fuel events :
  ~ In "undefined" _param_languages ->
  Core._isReady _param_languages (Core.run _regex _param_languages fuel events) = true <->
  forall lang, In lang _param_languages ->
               exists data, In (Core.FileLoaded lang data) events.
Proof.
  intros Hundef. unfold Core._isReady. rewrite forallb_forall.
  assert (Hown : forall lang, In lang _param_languages ->
            own (Core._data (Core.run _regex _param_languages fuel events)) lang =
              match last_file events lang with
              | Some data => Some (Some (Core._flatten data))
              | None => Some None
              end).
  { intros lang Hin. unfold Core.run. rewrite run_data by (intros ->; contradiction).
    now rewrite (configured_starts_unloaded _ _ Hin). }
  split; intros H lang Hin; specialize (H lang Hin); rewrite (Hown lang Hin) in *.
  - apply last_file_arrived. now destruct (last_file events lang).
  - apply last_file_arrived in H. now destruct (last_file events lang).
Qed.

Lemma run_language fuel events : forall st,
  _param_languages <> [] -> configured _param_languages (Core._lang st) ->
  configured _param_languages
    (Core._lang (fold_left (Core.step _regex _param_languages fuel) events st)).
Proof.
  induction events as [|e events IH]; intros st Hne Hst; cbn [fold_left]; [exact Hst|].
  apply (IH _ Hne). destruct e as [|l data|gameTitle|v]; cbn [Core.step]; try exact Hst.
  destruct (set_language_state fuel v st) as (-> & _ & _).
  destruct (contains _param_languages v) eqn:E.
  - now apply contains_configured.
  - rewrite array_get_first. destruct _param_languages as [|l0 ls]; [congruence|].
    exists l0. split; [reflexivity|now left].
Qed.

(** With at least one language configured, the current language is one of
    the configured ones at every moment, and once [Scene_Boot.isReady]
    answers true the resolver never throws. *)
Theorem ready_never_throws fuel events :
  _param_languages <> [] ->
  configured _param_languages (Core._lang (Core.run _regex _param_languages fuel events)) /\
  (forall alias_isReady,
   Core.Scene_Boot_isReady _param_languages alias_isReady
     (Core.run _regex _param_languages fuel events) = true ->
   forall n text,
     Core._replace _regex n (Core.run _regex _param_languages fuel events) text = OutOfFuel \/
     exists r, Core._replace _regex n (Core.run _regex _param_languages fuel events) text = Normal r).
Proof.
  intros Hne.
  assert (Hlang : configured _param_languages
                    (Core._lang (Core.run _regex _param_languages fuel events))).
  { apply run_language; [exact Hne|]. cbn [Core.initial_state Core._lang].
    rewrite array_get_first. destruct _param_languages as [|l0 ls]; [congruence|].
    exists l0. split; [reflexivity|now left]. }
  split; [exact Hlang|]. intros alias_isReady Hready.
  unfold Core.Scene_Boot_isReady in Hready. apply andb_prop in Hready as [Hready _].
  destruct Hlang as (l & Hl & Hin). unfold Core._isReady in Hready.
  rewrite forallb_forall in Hready. specialize (Hready l Hin).
  destruct (own (Core._data (Core.run _regex _param_languages fuel events)) l)
    as [[t|]|] eqn:E; try discriminate.
  apply (_replace_loaded _regex _ t). now rewrite Hl.
Qed.

End Registry.

(** C1 (amended): at every point of the plugin's life, if the active
    language is a configured identifier other than ["undefined"] and no file
    has arrived for it, its registry entry is [null], not an empty table:
    the plugin is not ready, a text in which the pattern finds no match
    resolves to itself, and resolving a text that holds a match throws a
    [TypeError]. *)
Theorem resolve_unloaded (regex : pattern) (langs : list string) (fuel : nat)
    (events : list Core.event) (lang : string) :
  In lang langs -> lang <> "undefined" ->
  (forall data, ~ In (Core.FileLoaded lang data) events) ->
  Core._lang (Core.run regex langs fuel events) = VScalar (SStr lang) ->
  own (Core._data (Core.run regex langs fuel events)) lang = Some None /\
  Core._isReady langs (Core.run regex langs fuel events) = false /\
  forall n s,
    Core._replace regex (S n) (Core.run regex langs fuel events) (VScalar (SStr s)) =
      match matches regex s with
      | [] => Normal (VScalar (SStr s))
      | _ :: _ => Throw TypeError
      end.
Proof.
  intros Hin Hne Hfile Hlang.
  assert (Hnone : last_file events lang = None).
  { destruct (last_file events lang) as [d|] eqn:E; [|reflexivity].
    destruct (proj1 (last_file_arrived events lang)) as [data Hd]; [congruence|].
    elim (Hfile data Hd). }
  assert (Hd : own (Core._data (Core.run regex langs fuel events)) lang = Some None).
  { unfold Core.run. rewrite (run_data _ _ _ _ _ _ Hne), Hnone.
    exact (configured_starts_unloaded _ _ Hin). }
  split; [exact Hd|]. split.
  - unfold Core._isReady.
    destruct (forallb _ langs) eqn:E; [|reflexivity].
    rewrite forallb_forall in E. specialize (E lang Hin). rewrite Hd in E. discriminate.
  - intros n s. apply replace_null_entry. rewrite Hlang. exact Hd.
Qed.

Lemma resolve_unloaded_witness :
  own (Core._data (Core.run regex_default ["en"] 5 [Core.Initialize])) "en" = Some None /\
  Core._isReady ["en"] (Core.run regex_default ["en"] 5 [Core.Initialize]) = false /\
  forall n s,
    Core._replace regex_default (S n) (Core.run regex_default ["en"] 5 [Core.Initialize])
      (VScalar (SStr s)) =
      match matches regex_default s with
      | [] => Normal (VScalar (SStr s))
      | _ :: _ => Throw TypeError
      end.
Proof.
  apply (resolve_unloaded regex_default ["en"] 5 [Core.Initialize] "en").
  - now left.
  - discriminate.
  - intros data [H|[]]. discriminate.
  - reflexivity.
Defined.

Lemma table_is_latest_file_witness :
  own (Core._data (Core.run regex_default ["en"; "de"] 3
                     [ Core.Initialize;
                       Core.FileLoaded "en" doc_list;
                       Core.SetLanguage (VScalar (SStr "de"));
                       Core.FileLoaded "en" doc_harold ])) "en"
    = Some (Some (Core._flatten doc_harold)).
Proof.
  exact (table_is_latest_file regex_default ["en"; "de"] 3
           [ Core.Initialize; Core.FileLoaded "en" doc_list;
             Core.SetLanguage (VScalar (SStr "de")); Core.FileLoaded "en" doc_harold ]
           "en" (or_introl eq_refl) ltac:(discriminate)).
Defined.

Lemma ready_when_all_files_arrived_witness :
  Core._isReady ["en"; "de"]
    (Core.run regex_default ["en"; "de"] 3
       [ Core.Initialize; Core.FileLoaded "de" doc_list; Core.FileLoaded "en" doc_harold ]) = true
  <->
  forall lang, In lang ["en"; "de"] ->
    exists data,
      In (Core.FileLoaded lang data)
         [ Core.Initialize; Core.FileLoaded "de" doc_list; Core.FileLoaded "en" doc_harold ].
Proof.
  apply (ready_when_all_files_arrived regex_default ["en"; "de"] 3).
  intros [H|[H|[]]]; discriminate.
Defined.

Lemma ready_never_throws_witness :
  configured ["en"]
    (Core._lang (Core.run regex_default ["en"] 3
                   [ Core.Initialize; Core.FileLoaded "en" doc_harold;
                     Core.SetLanguage (VScalar (SStr "fr")) ])) /\
  (forall alias_isReady,
   Core.Scene_Boot_isReady ["en"] alias_isReady
     (Core.run regex_default ["en"] 3
        [ Core.Initialize; Core.FileLoaded "en" doc_harold;
          Core.SetLanguage (VScalar (SStr "fr")) ]) = true ->
   forall n text,
     Core._replace regex_default n
       (Core.run regex_default ["en"] 3
          [ Core.Initialize; Core.FileLoaded "en" doc_harold;
            Core.SetLanguage (VScalar (SStr "fr")) ]) text = OutOfFuel \/
     exists r,
       Core._replace regex_default n
         (Core.run regex_default ["en"] 3
            [ Core.Initialize; Core.FileLoaded "en" doc_harold;
              Core.SetLanguage (VScalar (SStr "fr")) ]) text = Normal r).
Proof.
  apply (ready_never_throws regex_default ["en"] 3
           [ Core.Initialize; Core.FileLoaded "en" doc_harold;
             Core.SetLanguage (VScalar (SStr "fr")) ]).
  discriminate.
Defined.

(** ** No language configured *)

Section NoLanguage.

Variable _regex : pattern.

Lemma run_undefined_kept fuel events : forall st,
  Forall (requested []) events ->
  own (Core._data st) "undefined" = Some (Some []) ->
  own (Core._data (fold_left (Core.step _regex [] fuel) events st)) "undefined" = Some (Some []).
Proof.
  induction events as [|e events IH]; intros st Hreq Hst; cbn [fold_left]; [exact Hst|].
  inversion Hreq as [|? ? He Hreq']; subst. apply (IH _ Hreq').
  rewrite step_data. destruct e as [|l data|gameTitle|v]; try exact Hst; [reflexivity|destruct He].
Qed.

Lemma run_undefined fuel events : forall st,
  Forall (requested []) events ->
  own (Core._data (fold_left (Core.step _regex [] fuel) events st)) "undefined" =
    if existsb (fun e => match e with Core.Initialize => true | _ => false end) events
    then Some (Some [])
    else own (Core._data st) "undefined".
Proof.
  induction events as [|e events IH]; intros st Hreq; cbn [fold_left existsb]; [reflexivity|].
  inversion Hreq as [|? ? He Hreq']; subst.
  destruct e as [|l data|gameTitle|v]; cbn [orb]; try destruct He.
  - apply (run_undefined_kept _ _ _ Hreq'). now rewrite step_data.
  - now rewrite (IH _ Hreq'), step_data.
  - now rewrite (IH _ Hreq'), step_data.
Qed.

Lemma run_no_language fuel events : forall st,
  Core._lang st = VUndefined ->
  Core._lang (fold_left (Core.step _regex [] fuel) events st) = VUndefined.
Proof.
  induction events as [|e events IH]; intros st Hst; cbn [fold_left]; [exact Hst|].
  apply IH. destruct e as [|l data|gameTitle|v]; cbn [Core.step]; try exact Hst.
  now destruct (set_language_state _regex [] fuel v st) as (-> & _ & _).
Qed.

(** When no language is configured, the current language stays [undefined]
    whatever is assigned to it and the plugin is ready at once.  From
    [_initialize] on the resolver works on the empty fallback table; before
    it, every text with an escape code makes it throw. *)
Theorem no_language_fallback fuel events :
  Forall (requested []) events ->
  Core._lang (Core.run _regex [] fuel events) = VUndefined /\
  Core._isReady [] (Core.run _regex [] fuel events) = true /\
  (In Core.Initialize events ->
     own (Core._data (Core.run _regex [] fuel events))
         (ToString (Core._lang (Core.run _regex [] fuel events))) = Some (Some [])) /\
  (~ In Core.Initialize events ->
     forall n s, matches _regex s <> [] ->
       Core._replace _regex (S n) (Core.run _regex [] fuel events) (VScalar (SStr s))
         = Throw TypeError).
Proof.
  intros Hreq.
  assert (Hlang : Core._lang (Core.run _regex [] fuel events) = VUndefined)
    by (apply run_no_language; reflexivity).
  assert (Hdata := run_undefined fuel events (Core.initial_state []) Hreq).
  fold (Core.run _regex [] fuel events) in Hdata.
  split; [exact Hlang|]. split; [reflexivity|]. rewrite Hlang. cbn [ToString]. split.
  - intros Hin. rewrite Hdata.
    replace (existsb _ events) with true; [reflexivity|].
    symmetry. apply existsb_exists. now exists Core.Initialize.
  - intros Hnot n s Hm. unfold Core._replace. rewrite Hlang. cbn [ToString Core.while_f].
    rewrite Hdata.
    replace (existsb _ events) with false.
    + cbn [Core.initial_state Core._data fold_left own].
      rewrite replace_unloaded; [reflexivity|now left|exact Hm].
    + symmetry. apply not_true_is_false. intros (e & Hin & He)%existsb_exists.
      destruct e; try discriminate. contradiction.
Qed.

End NoLanguage.

Lemma no_language_fallback_witness :
  Core._lang (Core.run regex_default [] 3 [ Core.Initialize; Core.SetLanguage (VScalar (SStr "en")) ])
    = VUndefined /\
  Core._isReady [] (Core.run regex_default [] 3 [ Core.Initialize; Core.SetLanguage (VScalar (SStr "en")) ])
    = true /\
  (In Core.Initialize [ Core.Initialize; Core.SetLanguage (VScalar (SStr "en")) ] ->
     own (Core._data (Core.run regex_default [] 3 [ Core.Initialize; Core.SetLanguage (VScalar (SStr "en")) ]))
         (ToString (Core._lang (Core.run regex_default [] 3
                                  [ Core.Initialize; Core.SetLanguage (VScalar (SStr "en")) ])))
       = Some (Some [])) /\
  (~ In Core.Initialize [ Core.Initialize; Core.SetLanguage (VScalar (SStr "en")) ] ->
     forall n s, matches regex_default s <> [] ->
       Core._replace regex_default (S n)
         (Core.run regex_default [] 3 [ Core.Initialize; Core.SetLanguage (VScalar (SStr "en")) ])
         (VScalar (SStr s)) = Throw TypeError).
Proof.
  apply (no_language_fallback regex_default 3
           [ Core.Initialize; Core.SetLanguage (VScalar (SStr "en")) ]).
  repeat constructor.
Defined.

(** ** The parameter [File Path] *)

Lemma split_first_eq needle : forall s a b,
  split_first needle s = Some (a, b) -> s = a ++ needle ++ b.
Proof.
  induction s as [|c s IH]; intros a b; cbn [split_first].
  - destruct (strip_prefix needle EmptyString) as [rest|] eqn:E; [|discriminate].
    intros [= <- <-]. exact (strip_prefix_eq _ _ _ E).
  - destruct (strip_prefix needle (String c s)) as [rest|] eqn:E.
    + intros [= <- <-]. exact (strip_prefix_eq _ _ _ E).
    + destruct (split_first needle s) as [[a' b']|]; [|discriminate].
      intros [= <- <-]. now rewrite (IH _ _ eq_refl).
Qed.

Lemma split_first_found needle : forall x y,
  exists a b, split_first needle (x ++ needle ++ y) = Some (a, b).
Proof.
  induction x as [|c x IH]; intros y.
  - exists EmptyString, y. cbn [append].
    destruct (needle ++ y) as [|c s] eqn:E; cbn [split_first]; rewrite <- E, strip_prefix_app;
      reflexivity.
  - cbn [append split_first].
    destruct (strip_prefix needle (String c (x ++ needle ++ y))) as [rest|]; [now eexists _, _|].
    destruct (IH y) as (a & b & ->). now eexists _, _.
Qed.

Lemma split_first_clean (c : ascii) needle' : forall a b,
  lacks c a = true ->
  split_first (String c needle') (a ++ String c (needle' ++ b)) = Some (a, b).
Proof.
  induction a as [|c' a IH]; intros b Ha.
  - cbn [append split_first strip_prefix]. now rewrite Ascii.eqb_refl, strip_prefix_app.
  - cbn [lacks] in Ha. apply andb_prop in Ha as [Hc Ha].
    cbn [append split_first strip_prefix].
    rewrite Ascii.eqb_sym. destruct (Ascii.eqb c' c); [discriminate|].
    now rewrite (IH _ Ha).
Qed.

Lemma substitution_plain matched before after : forall r,
  lacks "$" r = true -> substitution matched before after r = r.
Proof.
  induction r as [|c r IH]; cbn [lacks substitution]; [reflexivity|].
  intros [Hc Hr]%andb_prop. destruct (Ascii.eqb c "$"); [discriminate|]. now rewrite (IH Hr).
Qed.

Lemma string_length_app (a b : string) :
  String.length (a ++ b) = String.length a + String.length b.
Proof. induction a as [|c a IH]; simpl; [reflexivity|now rewrite IH]. Qed.

Lemma append_inj_r (x y b : string) : x ++ b = y ++ b -> x = y.
Proof.
  revert y. induction x as [|c x IH]; intros [|d y] H; cbn [append] in H.
  - reflexivity.
  - apply (f_equal String.length) in H. simpl in H. rewrite string_length_app in H. lia.
  - apply (f_equal String.length) in H. simpl in H. rewrite string_length_app in H. lia.
  - injection H as -> H. now rewrite (IH _ H).
Qed.

(** The file of a language: when the text before the placeholder holds no
    brace and the language no dollar, the placeholder gives way to the
    language; [{lang}.json] becomes [en.json]. *)
Theorem file_url_substitutes (before after lang : string) :
  lacks "{" before = true -> lacks "$" lang = true ->
  Core.file_url (before ++ "{lang}" ++ after) lang = before ++ lang ++ after.
Proof.
  intros Hb Hl. unfold Core.file_url, replace_first.
  assert (E : split_first "{lang}" (before ++ "{lang}" ++ after) = Some (before, after))
    by exact (split_first_clean "{" "lang}" _ _ Hb).
  rewrite E. now rewrite (substitution_plain _ _ _ _ Hl).
Qed.

(** When the path holds the placeholder, two languages (without a dollar)
    ask for the same file only if they are the same language. *)
Theorem file_url_distinct (_param_filePath l1 l2 : string) :
  (exists x y, _param_filePath = x ++ "{lang}" ++ y) ->
  lacks "$" l1 = true -> lacks "$" l2 = true ->
  (Core.file_url _param_filePath l1 =? Core.file_url _param_filePath l2) = (l1 =? l2).
Proof.
  intros (x & y & ->) H1 H2. unfold Core.file_url, replace_first.
  destruct (split_first_found "{lang}" x y) as (a & b & ->).
  rewrite !substitution_plain by assumption.
  destruct (String.eqb_spec l1 l2) as [->|Hne]; [apply String.eqb_refl|].
  apply String.eqb_neq. intros H%append_inj_l. exact (Hne (append_inj_r _ _ _ H)).
Qed.

(** When the path holds no placeholder, every language asks for the very
    same file. *)
Theorem file_url_without_placeholder (_param_filePath lang : string) :
  (forall x y, _param_filePath <> x ++ "{lang}" ++ y) ->
  Core.file_url _param_filePath lang = _param_filePath.
Proof.
  intros Hno. unfold Core.file_url, replace_first.
  destruct (split_first "{lang}" _param_filePath) as [[a b]|] eqn:E; [|reflexivity].
  elim (Hno a b). exact (split_first_eq _ _ _ _ E).
Qed.

Lemma file_url_substitutes_witness :
  Core.file_url "lang/{lang}.json" "en" = "lang/en.json".
Proof. exact (file_url_substitutes "lang/" ".json" "en" eq_refl eq_refl). Defined.

Lemma file_url_distinct_witness :
  (Core.file_url "{lang}.json" "en" =? Core.file_url "{lang}.json" "de") = ("en" =? "de").
Proof.
  apply (file_url_distinct "{lang}.json" "en" "de"); try reflexivity.
  now exists EmptyString, ".json".
Defined.

Lemma file_url_without_placeholder_witness : Core.file_url "" "en" = "".
Proof.
  apply (file_url_without_placeholder "" "en").
  intros [|c x] y; discriminate.
Defined.

(** ** Comma-separated parameters *)

Lemma split_loop_empty piece : split_loop EmptyString piece = [piece].
Proof. now simp split_loop. Qed.

Lemma split_loop_char c s piece :
  separator_at (String c s) = None ->
  split_loop (String c s) piece = split_loop s (piece ++ String c EmptyString).
Proof.
  intros H. simp split_loop.
  destruct (inspect (separator_at (String c s))) as [[rest|] e]; simp split_loop;
    [congruence|reflexivity].
Qed.

Lemma split_loop_sep s rest piece :
  separator_at s = Some rest -> split_loop s piece = piece :: split_loop rest EmptyString.
Proof.
  destruct s as [|c s]; [discriminate|]. intros H. simp split_loop.
  destruct (inspect (separator_at (String c s))) as [[rest'|] e]; simp split_loop;
    [|congruence].
  rewrite H in e. now injection e as <-.
Qed.

Lemma split_induction (P : string -> Prop) :
  P EmptyString ->
  (forall s rest, separator_at s = Some rest -> P rest -> P s) ->
  (forall c s, separator_at (String c s) = None -> P s -> P (String c s)) ->
  forall s, P s.
Proof.
  intros H0 Hsep Hchar s.
  remember (String.length s) as n eqn:En.
  revert s En. induction n as [n IH] using lt_wf_ind. intros [|c s] En.
  - exact H0.
  - destruct (separator_at (String c s)) as [rest|] eqn:E.
    + apply (Hsep _ _ E). apply (IH (String.length rest)); [|reflexivity].
      apply separator_at_length in E. lia.
    + apply (Hchar _ _ E). apply (IH (String.length s)); [|reflexivity].
      simpl in En. lia.
Qed.

Lemma lacks_app c a b : lacks c (a ++ b) = lacks c a && lacks c b.
Proof.
  induction a as [|x a IH]; cbn [append lacks]; [reflexivity|].
  now rewrite IH, andb_assoc.
Qed.

Lemma split_loop_lacks_comma : forall s piece,
  lacks "," piece = true ->
  Forall (fun entry => lacks "," entry = true) (split_loop s piece).
Proof.
  induction s as [|s rest E IH|c s E IH] using split_induction; intros piece Hp.
  - rewrite split_loop_empty. now constructor.
  - rewrite (split_loop_sep _ _ _ E). constructor; [exact Hp|]. now apply IH.
  - rewrite (split_loop_char _ _ _ E). apply IH.
    rewrite lacks_app, Hp. cbn [lacks andb]. rewrite andb_true_r.
    unfold separator_at in E. cbn [skip_space] in E.
    destruct (Ascii.eqb_spec c ",") as [->|_]; [discriminate E|reflexivity].
Qed.

(** Every configured language is a non-empty text without a comma. *)
Theorem parse_languages_entries (param : string) :
  Forall (fun lang => lang <> EmptyString /\ lacks "," lang = true)
         (Core.parse_languages param).
Proof.
  apply Forall_forall. intros lang Hin.
  unfold Core.parse_languages in Hin. apply filter_In in Hin as [Hin Hne]. split.
  - intros ->. discriminate.
  - pose proof (split_loop_lacks_comma param EmptyString eq_refl) as H.
    rewrite Forall_forall in H. exact (H _ Hin).
Qed.

Lemma separator_inside x : forall rest,
  tail_ok x = true -> separator_at (x ++ rest) = None.
Proof.
  induction x as [|c x IH]; intros rest Hx; [discriminate|].
  assert (Hc : Ascii.eqb c "," = false /\ (x = EmptyString -> is_space c = false)
               /\ (x <> EmptyString -> tail_ok x = true)).
  { cbn [tail_ok] in Hx. destruct x as [|d x].
    - apply andb_prop in Hx as [H1 H2]. repeat split.
      + now destruct (Ascii.eqb c ",").
      + intros _. now destruct (is_space c).
      + congruence.
    - apply andb_prop in Hx as [H1 H2]. repeat split.
      + now destruct (Ascii.eqb c ",").
      + discriminate.
      + intros _. exact H2. }
  destruct Hc as (Hcomma & Hlast & Htail).
  unfold separator_at. cbn [append skip_space].
  destruct (is_space c) eqn:Hs.
  - assert (Hx' : x <> EmptyString) by (intros ->; specialize (Hlast eq_refl); congruence).
    exact (IH rest (Htail Hx')).
  - now rewrite Hcomma.
Qed.

Lemma tail_ok_tail c x : x <> EmptyString -> tail_ok (String c x) = true -> tail_ok x = true.
Proof.
  destruct x as [|d x]; [congruence|]. intros _ H. cbn [tail_ok] in H.
  now apply andb_prop in H.
Qed.

Lemma split_loop_walk x : forall rest piece,
  tail_ok x = true -> split_loop (x ++ rest) piece = split_loop rest (piece ++ x).
Proof.
  induction x as [|c x IH]; intros rest piece Hx; [discriminate|].
  cbn [append]. rewrite split_loop_char by exact (separator_inside (String c x) rest Hx).
  destruct x as [|d x].
  - reflexivity.
  - rewrite IH by (apply (tail_ok_tail c); [discriminate|exact Hx]).
    now rewrite app_assoc3.
Qed.

Lemma skip_space_all w : forall z, all_space w = true -> skip_space (w ++ z) = skip_space z.
Proof.
  induction w as [|c w IH]; intros z Hw; [reflexivity|].
  cbn [all_space] in Hw. apply andb_prop in Hw as [Hc Hw].
  cbn [append skip_space]. rewrite Hc. exact (IH z Hw).
Qed.

Lemma skip_space_clean y : starts_clean y = true -> skip_space y = y.
Proof. destruct y as [|c y]; [reflexivity|]. cbn [starts_clean skip_space]. now destruct (is_space c). Qed.

Lemma separator_found sep y :
  is_separator sep -> starts_clean y = true -> separator_at (sep ++ y) = Some y.
Proof.
  intros (w1 & w2 & H1 & H2 & ->) Hy. unfold separator_at.
  rewrite !app_assoc3, (skip_space_all _ _ H1).
  change (skip_space ("," ++ w2 ++ y)) with (String "," (w2 ++ y)). cbv beta iota.
  rewrite Ascii.eqb_refl, (skip_space_all _ _ H2), (skip_space_clean _ Hy). reflexivity.
Qed.

Lemma well_formed_parts id :
  well_formed id = true -> tail_ok id = true /\ forall z, starts_clean (id ++ z) = true.
Proof.
  destruct id as [|c id]; [discriminate|]. unfold well_formed.
  intros [Hc Ht]%andb_prop. split; [exact Ht|]. intros z. exact Hc.
Qed.

Lemma split_commas_joined sep ids :
  is_separator sep -> ids <> [] ->
  Forall (fun id => well_formed id = true) ids ->
  split_commas (String.concat sep ids) = ids.
Proof.
  intros Hsep. unfold split_commas.
  induction ids as [|id ids IH]; intros Hne Hwf; [congruence|].
  inversion Hwf as [|? ? Hid Hwf']; subst.
  destruct (well_formed_parts _ Hid) as [Htail _].
  destruct ids as [|id' ids].
  - cbn [String.concat]. rewrite <- (app_empty_r id) at 1.
    now rewrite (split_loop_walk _ _ _ Htail), split_loop_empty.
  - change (String.concat sep (id :: id' :: ids))
      with (id ++ sep ++ String.concat sep (id' :: ids)).
    rewrite (split_loop_walk _ _ _ Htail). cbn [append].
    rewrite (split_loop_sep _ (String.concat sep (id' :: ids))).
    + now rewrite IH.
    + apply (separator_found _ _ Hsep).
      inversion Hwf' as [|? ? Hid' _]; subst.
      destruct (well_formed_parts _ Hid') as [_ Hclean].
      destruct ids; [rewrite <- (app_empty_r id')|]; apply Hclean.
Qed.

(** Writing the languages one after the other, with a comma and any
    whitespace around it in between, and reading the parameter gives back
    the same languages in the same order. *)
Theorem parse_languages_round_trip (sep : string) (ids : list string) :
  is_separator sep ->
  Forall (fun id => well_formed id = true) ids ->
  Core.parse_languages (String.concat sep ids) = ids.
Proof.
  intros Hsep Hwf. unfold Core.parse_languages.
  destruct ids as [|id ids]; [reflexivity|].
  rewrite (split_commas_joined _ _ Hsep) by (congruence || assumption).
  clear Hsep. induction Hwf as [|x l Hx _ IH]; [reflexivity|].
  cbn [filter]. destruct x; [discriminate|]. cbn [String.eqb negb]. now rewrite IH.
Qed.

Lemma parse_languages_round_trip_witness :
  Core.parse_languages (String.concat " , " ["en"; "pt BR"; "de"]) = ["en"; "pt BR"; "de"].
Proof.
  apply (parse_languages_round_trip " , " ["en"; "pt BR"; "de"]).
  - now exists " ", " ".
  - repeat constructor.
Defined.

(** ** The direction and the reach of the cycling helpers *)

Section Direction.

Variable languages : list string.
Hypothesis distinct : NoDup languages.

Lemma helpers_at j l :
  nth_error languages j = Some l ->
  Menu._prevLanguage languages (VScalar (SStr l))
    = array_get languages ((Z.of_nat j + 1) mod Z.of_nat (length languages)) /\
  Menu._nextLanguage languages (VScalar (SStr l))
    = array_get languages ((Z.of_nat j - 1) mod Z.of_nat (length languages)).
Proof.
  intros Hj.
  assert (Hlt : (j < length languages)%nat) by (apply nth_error_Some; congruence).
  unfold Menu._prevLanguage, Menu._nextLanguage. rewrite (indexOf_nth _ _ _ distinct Hj).
  split.
  - destruct (Z.leb_spec (Z.of_nat (length languages)) (Z.of_nat j + 1)).
    + replace (Z.of_nat j + 1)%Z with (Z.of_nat (length languages)) by lia.
      now rewrite Z_mod_same_full.
    + now rewrite Z.mod_small by lia.
  - destruct (Z.ltb_spec (Z.of_nat j - 1) 0).
    + replace (Z.of_nat j - 1)%Z
        with (Z.of_nat (length languages) - 1 + (-1) * Z.of_nat (length languages))%Z by lia.
      now rewrite Z_mod_plus_full, Z.mod_small by lia.
    + now rewrite Z.mod_small by lia.
Qed.

Lemma helpers_at_index (j : Z) :
  (0 <= j < Z.of_nat (length languages))%Z ->
  Menu._prevLanguage languages (array_get languages j)
    = array_get languages ((j + 1) mod Z.of_nat (length languages)) /\
  Menu._nextLanguage languages (array_get languages j)
    = array_get languages ((j - 1) mod Z.of_nat (length languages)).
Proof.
  intros Hj. destruct (array_get_in_range _ _ Hj) as (l & Hl & ->).
  pose proof (helpers_at _ _ Hl) as H. rewrite Z2Nat.id in H by lia. exact H.
Qed.

(** In a list of distinct languages, [_prevLanguage] answers the language
    that follows its argument in the list (the first one after the last) and
    [_nextLanguage] the one that precedes it (the last one before the
    first). *)
Theorem cycling_direction (j : nat) (l : string) :
  nth_error languages j = Some l ->
  Menu._prevLanguage languages (VScalar (SStr l))
    = array_get languages ((Z.of_nat j + 1) mod Z.of_nat (length languages)) /\
  Menu._nextLanguage languages (VScalar (SStr l))
    = array_get languages ((Z.of_nat j - 1) mod Z.of_nat (length languages)).
Proof. exact (helpers_at j l). Qed.

Lemma iterated_helpers j l (k : nat) :
  nth_error languages j = Some l ->
  Nat.iter k (Menu._prevLanguage languages) (VScalar (SStr l))
    = array_get languages ((Z.of_nat j + Z.of_nat k) mod Z.of_nat (length languages)) /\
  Nat.iter k (Menu._nextLanguage languages) (VScalar (SStr l))
    = array_get languages ((Z.of_nat j - Z.of_nat k) mod Z.of_nat (length languages)).
Proof.
  intros Hj.
  assert (Hlt : (j < length languages)%nat) by (apply nth_error_Some; congruence).
  assert (Hn : (0 < Z.of_nat (length languages))%Z) by lia.
  induction k as [|k [IHp IHn]].
  - change (Nat.iter 0 (Menu._prevLanguage languages) (VScalar (SStr l))) with (VScalar (SStr l)).
    change (Nat.iter 0 (Menu._nextLanguage languages) (VScalar (SStr l))) with (VScalar (SStr l)).
    rewrite Z.add_0_r, Z.sub_0_r, Z.mod_small by lia.
    now rewrite (array_get_nth _ _ _ Hj).
  - rewrite !Nat.iter_succ, IHp, IHn. split.
    + rewrite (proj1 (helpers_at_index _ (Z.mod_pos_bound _ _ Hn))).
      rewrite Zplus_mod_idemp_l. f_equal. f_equal. lia.
    + rewrite (proj2 (helpers_at_index _ (Z.mod_pos_bound _ _ Hn))).
      rewrite Zminus_mod_idemp_l. f_equal. f_equal. lia.
Qed.

(** Starting from any registered language, each helper reaches every
    registered language in fewer steps than there are languages, and is back
    at the start after exactly that many steps. *)
Theorem cycling_visits_all (l l' : string) :
  In l languages -> In l' languages ->
  (exists k, k < length languages /\
     Nat.iter k (Menu._prevLanguage languages) (VScalar (SStr l)) = VScalar (SStr l')) /\
  (exists k, k < length languages /\
     Nat.iter k (Menu._nextLanguage languages) (VScalar (SStr l)) = VScalar (SStr l')) /\
  Nat.iter (length languages) (Menu._prevLanguage languages) (VScalar (SStr l))
    = VScalar (SStr l) /\
  Nat.iter (length languages) (Menu._nextLanguage languages) (VScalar (SStr l))
    = VScalar (SStr l).
Proof.
  intros [i Hi]%In_nth_error [j Hj]%In_nth_error.
  assert (Hilt : (i < length languages)%nat) by (apply nth_error_Some; congruence).
  assert (Hjlt : (j < length languages)%nat) by (apply nth_error_Some; congruence).
  set (n := Z.of_nat (length languages)).
  assert (Hn : (0 < n)%Z) by (subst n; lia).
  repeat split.
  - exists (Z.to_nat ((Z.of_nat j - Z.of_nat i) mod n)).
    pose proof (Z.mod_pos_bound (Z.of_nat j - Z.of_nat i) n Hn). split; [subst n; lia|].
    rewrite (proj1 (iterated_helpers _ _ _ Hi)), Z2Nat.id by lia. fold n.
    rewrite Zplus_mod_idemp_r.
    replace (Z.of_nat i + (Z.of_nat j - Z.of_nat i))%Z with (Z.of_nat j) by lia.
    rewrite Z.mod_small by (subst n; lia). exact (array_get_nth _ _ _ Hj).
  - exists (Z.to_nat ((Z.of_nat i - Z.of_nat j) mod n)).
    pose proof (Z.mod_pos_bound (Z.of_nat i - Z.of_nat j) n Hn). split; [subst n; lia|].
    rewrite (proj2 (iterated_helpers _ _ _ Hi)), Z2Nat.id by lia. fold n.
    rewrite Zminus_mod_idemp_r.
    replace (Z.of_nat i - (Z.of_nat i - Z.of_nat j))%Z with (Z.of_nat j) by lia.
    rewrite Z.mod_small by (subst n; lia). exact (array_get_nth _ _ _ Hj).
  - rewrite (proj1 (iterated_helpers _ _ _ Hi)). fold n.
    replace (Z.of_nat i + n)%Z with (Z.of_nat i + 1 * n)%Z by lia.
    rewrite Z_mod_plus_full, Z.mod_small by (subst n; lia). exact (array_get_nth _ _ _ Hi).
  - rewrite (proj2 (iterated_helpers _ _ _ Hi)). fold n.
    replace (Z.of_nat i - n)%Z with (Z.of_nat i + (-1) * n)%Z by lia.
    rewrite Z_mod_plus_full, Z.mod_small by (subst n; lia). exact (array_get_nth _ _ _ Hi).
Qed.

End Direction.

Lemma array_get_last l :
  array_get l (Z.of_nat (length l) - 1) = default_language (rev l).
Proof.
  destruct (rev l) as [|x r] eqn:E.
  - apply (f_equal (@rev string)) in E. rewrite rev_involutive in E. now subst l.
  - apply (f_equal (@rev string)) in E. rewrite rev_involutive in E. subst l.
    cbn [rev default_language]. rewrite List.length_app. cbn [length].
    replace (Z.of_nat (length (rev r) + 1) - 1)%Z with (Z.of_nat (length (rev r))) by lia.
    apply array_get_nth. rewrite nth_error_app2 by lia. now rewrite Nat.sub_diag.
Qed.

(** For a value that is not registered, [_prevLanguage] answers the first
    language of the list and [_nextLanguage] the last one (both [undefined]
    when the list is empty). *)
Theorem cycling_from_unregistered (languages : list string) (v : value) :
  ~ configured languages v ->
  Menu._prevLanguage languages v = default_language languages /\
  Menu._nextLanguage languages v = default_language (rev languages).
Proof.
  intros Hv.
  assert (Hi : indexOf languages v = (-1)%Z).
  { pose proof (indexOf_range languages v).
    destruct (Z.leb_spec 0 (indexOf languages v)) as [Hpos|Hneg]; [|lia].
    elim Hv. exact (proj2 (indexOf_found _ _ Hpos)). }
  unfold Menu._prevLanguage, Menu._nextLanguage. rewrite Hi. split.
  - cbn [Z.add Z.opp Z.pos_sub]. rewrite <- array_get_first.
    now destruct (Z.of_nat (length languages) <=? 0)%Z.
  - cbn [Z.sub Z.add Z.opp Z.ltb Z.compare]. apply array_get_last.
Qed.

Lemma cycling_direction_witness :
  Menu._prevLanguage ["en"; "de"; "fr"] (VScalar (SStr "fr"))
    = array_get ["en"; "de"; "fr"] ((Z.of_nat 2 + 1) mod Z.of_nat (length ["en"; "de"; "fr"])) /\
  Menu._nextLanguage ["en"; "de"; "fr"] (VScalar (SStr "fr"))
    = array_get ["en"; "de"; "fr"] ((Z.of_nat 2 - 1) mod Z.of_nat (length ["en"; "de"; "fr"])).
Proof.
  apply (cycling_direction ["en"; "de"; "fr"]); [|reflexivity].
  repeat constructor; simpl; intuition discriminate.
Defined.

Lemma cycling_visits_all_witness :
  (exists k, k < length ["en"; "de"; "fr"] /\
     Nat.iter k (Menu._prevLanguage ["en"; "de"; "fr"]) (VScalar (SStr "fr")) = VScalar (SStr "de")) /\
  (exists k, k < length ["en"; "de"; "fr"] /\
     Nat.iter k (Menu._nextLanguage ["en"; "de"; "fr"]) (VScalar (SStr "fr")) = VScalar (SStr "de")) /\
  Nat.iter (length ["en"; "de"; "fr"]) (Menu._prevLanguage ["en"; "de"; "fr"]) (VScalar (SStr "fr"))
    = VScalar (SStr "fr") /\
  Nat.iter (length ["en"; "de"; "fr"]) (Menu._nextLanguage ["en"; "de"; "fr"]) (VScalar (SStr "fr"))
    = VScalar (SStr "fr").
Proof.
  apply (cycling_visits_all ["en"; "de"; "fr"]).
  - repeat constructor; simpl; intuition discriminate.
  - simpl; tauto.
  - simpl; tauto.
Defined.

Lemma cycling_from_unregistered_witness :
  Menu._prevLanguage ["en"; "de"; "fr"] VUndefined = default_language ["en"; "de"; "fr"] /\
  Menu._nextLanguage ["en"; "de"; "fr"] VUndefined = default_language (rev ["en"; "de"; "fr"]).
Proof.
  apply (cycling_from_unregistered ["en"; "de"; "fr"] VUndefined).
  intros (s & H & _). discriminate.
Defined.

(** ** Applying a language *)

Section Applying.

Variable _regex : pattern.
Variable languages : list string.

Lemma fallback_cases v :
  (configured languages v -> fallback languages v = v) /\
  (~ configured languages v -> fallback languages v = default_language languages).
Proof.
  unfold fallback. destruct (contains languages v) eqn:E.
  - apply contains_configured in E. split; [reflexivity|contradiction].
  - split; [|intros _; apply array_get_first].
    intros H%contains_configured. congruence.
Qed.

Lemma fallback_idem v : fallback languages (fallback languages v) = fallback languages v.
Proof.
  destruct (fallback_cases (fallback languages v)) as [Hc Hn].
  destruct (contains languages (fallback languages v)) eqn:E.
  - apply Hc, contains_configured, E.
  - unfold fallback at 1. rewrite E. unfold fallback.
    destruct (contains languages v) eqn:Ev; [|reflexivity].
    unfold fallback in E. rewrite Ev in E. congruence.
Qed.

Lemma applyLanguage_result fuel v st st1 r :
  Menu._applyLanguage _regex languages fuel v st = (st1, Normal r) ->
  r = fallback languages v /\ Core._lang st1 = r /\
  Menu._applyLanguage _regex languages fuel r st1 = (st1, Normal r).
Proof.
  unfold Menu._applyLanguage, Core.set_language, Core.updateDocumentTitle, Core.get_language.
  fold (fallback languages v). fold (fallback languages r).
  cbn [Core.dataSystem Core.with_lang].
  destruct (Core.dataSystem st) as [gameTitle|] eqn:Hg.
  - destruct (Core._replace _regex fuel (Core.with_lang st (fallback languages v)) gameTitle)
      as [title| |] eqn:E; cbn [bind]; intros [= <- Hr]; try discriminate.
    cbn [Core._lang Core.with_title Core.with_lang] in Hr. subst r.
    split; [reflexivity|]. split; [reflexivity|].
    rewrite fallback_idem. cbn [Core.dataSystem Core.with_title Core.with_lang]. rewrite Hg.
    change (Core._replace _regex fuel _ gameTitle)
      with (Core._replace _regex fuel (Core.with_lang st (fallback languages v)) gameTitle).
    rewrite E. reflexivity.
  - cbn [bind]. intros [= <- Hr]. cbn [Core._lang Core.with_lang] in Hr. subst r.
    split; [reflexivity|]. split; [reflexivity|].
    rewrite fallback_idem. cbn [Core.dataSystem Core.with_lang]. rewrite Hg. reflexivity.
Qed.

(** [_applyLanguage] answers the language it has made current: its argument
    when that is registered and the default language otherwise.  Applying
    its answer again changes nothing. *)
Theorem applyLanguage_idempotent fuel v st st1 r :
  Menu._applyLanguage _regex languages fuel v st = (st1, Normal r) ->
  (configured languages v -> r = v) /\
  (~ configured languages v -> r = default_language languages) /\
  Core.get_language st1 = r /\
  Menu._applyLanguage _regex languages fuel r st1 = (st1, Normal r).
Proof.
  intros H. destruct (applyLanguage_result _ _ _ _ _ H) as (Hr & Hlang & Hagain).
  destruct (fallback_cases v) as [Hc Hn].
  repeat split; try assumption.
  - intros Hv. rewrite Hr. exact (Hc Hv).
  - intros Hv. rewrite Hr. exact (Hn Hv).
Qed.

(** The language written to the config savefile is the current language of
    both plugins, and reading it back later makes it current again, whatever
    was selected in between. *)
Theorem config_round_trip fuel ms ms1 saved :
  Menu.makeData _regex languages fuel ms = (ms1, Normal saved) ->
  Menu._language ms1 = saved /\
  Core.get_language (Menu.core ms1) = saved /\
  forall ms2 ms3 restored,
    Menu.applyData _regex languages fuel saved ms2 = (ms3, Normal restored) ->
    restored = saved /\ Menu._language ms3 = saved /\
    Core.get_language (Menu.core ms3) = saved.
Proof.
  unfold Menu.makeData, Menu.applyData, Menu.apply_and_store.
  destruct (Menu._applyLanguage _regex languages fuel (Menu._language ms) (Menu.core ms))
    as [st1 [l| |]] eqn:E; intros [= <- <-].
  destruct (applyLanguage_result _ _ _ _ _ E) as (Hl & Hlang & _).
  cbn [Menu._language Menu.core]. split; [reflexivity|]. split; [exact Hlang|].
  intros ms2 ms3 restored.
  destruct (Menu._applyLanguage _regex languages fuel l (Menu.core ms2))
    as [st3 [l'| |]] eqn:E'; intros [= <- <-].
  destruct (applyLanguage_result _ _ _ _ _ E') as (Hl' & Hlang' & _).
  cbn [Menu._language Menu.core].
  assert (Heq : l' = l) by (rewrite Hl', Hl; apply fallback_idem).
  unfold Core.get_language. rewrite Hlang', Heq. now repeat split.
Qed.

End Applying.

Lemma applyLanguage_idempotent_witness :
  (configured ["en"; "de"] (VScalar (SStr "fr")) -> VScalar (SStr "en") = VScalar (SStr "fr")) /\
  (~ configured ["en"; "de"] (VScalar (SStr "fr")) ->
     VScalar (SStr "en") = default_language ["en"; "de"]) /\
  Core.get_language (Core.with_lang st_harold (VScalar (SStr "en"))) = VScalar (SStr "en") /\
  Menu._applyLanguage regex_default ["en"; "de"] 3 (VScalar (SStr "en"))
      (Core.with_lang st_harold (VScalar (SStr "en")))
    = (Core.with_lang st_harold (VScalar (SStr "en")), Normal (VScalar (SStr "en"))).
Proof.
  exact (applyLanguage_idempotent regex_default ["en"; "de"] 3 (VScalar (SStr "fr")) st_harold
           (Core.with_lang st_harold (VScalar (SStr "en"))) (VScalar (SStr "en")) eq_refl).
Defined.

Lemma config_round_trip_witness :
  Menu._language {| Menu.core := Core.with_lang st_harold (VScalar (SStr "de"));
                    Menu._language := VScalar (SStr "de") |} = VScalar (SStr "de") /\
  Core.get_language (Core.with_lang st_harold (VScalar (SStr "de"))) = VScalar (SStr "de") /\
  forall ms2 ms3 restored,
    Menu.applyData regex_default ["en"; "de"] 3 (VScalar (SStr "de")) ms2 = (ms3, Normal restored) ->
    restored = VScalar (SStr "de") /\ Menu._language ms3 = VScalar (SStr "de") /\
    Core.get_language (Menu.core ms3) = VScalar (SStr "de").
Proof.
  exact (config_round_trip regex_default ["en"; "de"] 3
           {| Menu.core := st_harold; Menu._language := VScalar (SStr "de") |}
           {| Menu.core := Core.with_lang st_harold (VScalar (SStr "de"));
              Menu._language := VScalar (SStr "de") |}
           (VScalar (SStr "de")) eq_refl).
Defined.

(** ** The labels of the languages *)

Lemma split_char_walk sep x : forall rest piece,
  lacks sep x = true ->
  split_char sep (x ++ rest) piece = split_char sep rest (piece ++ x).
Proof.
  induction x as [|c x IH]; intros rest piece Hx.
  - now rewrite app_empty_r.
  - cbn [lacks] in Hx. apply andb_prop in Hx as [Hc Hx].
    cbn [append split_char]. destruct (Ascii.eqb c sep); [discriminate|].
    rewrite (IH _ _ Hx). now rewrite app_assoc3.
Qed.

Lemma split_char_length sep s : forall piece,
  length (split_char sep s piece) = S (count_char sep s).
Proof.
  induction s as [|c s IH]; intros piece; cbn [split_char count_char]; [reflexivity|].
  destruct (Ascii.eqb c sep); cbn [length]; now rewrite IH.
Qed.

Lemma add_label_entry map lang label :
  lacks ":" lang = true -> lacks ":" label = true ->
  Menu.add_label map (label_entry (lang, label)) = set_entry map (lang, SStr label).
Proof.
  intros Hl HL. unfold Menu.add_label, label_entry. cbn [fst snd].
  rewrite (split_char_walk _ _ _ _ Hl).
  change (":" ++ label) with (String ":" label). cbn [split_char append].
  rewrite Ascii.eqb_refl.
  rewrite <- (app_empty_r label) at 1. rewrite (split_char_walk _ _ _ _ HL).
  reflexivity.
Qed.

(** An entry of [Language Labels] that holds no colon, or more than one, adds
    no label. *)
Theorem label_needs_one_colon (map : table) (entry : string) :
  count_char ":" entry <> 1 -> Menu.add_label map entry = map.
Proof.
  intros H. unfold Menu.add_label.
  pose proof (split_char_length ":" entry EmptyString) as Hlen.
  destruct (split_char ":" entry EmptyString) as [|a [|b [|c l]]]; try reflexivity.
  cbn [length] in Hlen. congruence.
Qed.

Lemma label_needs_one_colon_witness :
  Menu.add_label [("en", SStr "English")] "de:Deu:tsch" = [("en", SStr "English")].
Proof.
  apply (label_needs_one_colon [("en", SStr "English")] "de:Deu:tsch"). discriminate.
Defined.

(** Writing [lang:label] entries one after the other, separated by commas,
    and reading the parameter gives each language its label in the options
    menu (for distinct languages, none of them named [__proto__]). *)
Theorem label_shown (sep : string) (pairs : list (string * string)) (lang label : string) :
  is_separator sep ->
  Forall (fun pair => well_formed (label_entry pair) = true /\
                      lacks ":" (fst pair) = true /\ lacks ":" (snd pair) = true) pairs ->
  NoDup (map fst pairs) ->
  In (lang, label) pairs -> lang <> "__proto__" ->
  Menu.statusText_language
    (Menu.parse_labels (String.concat sep (map label_entry pairs)))
    (VScalar (SStr lang)) = VScalar (SStr label).
Proof.
  intros Hsep Hwf Hnd Hin Hproto.
  unfold Menu.statusText_language, Menu.parse_labels, obj_get. cbn [ToString].
  rewrite (split_commas_joined _ _ Hsep).
  - set (entries := map (fun pair => (fst pair, SStr (snd pair))) pairs).
    assert (Hfold : forall r, fold_left Menu.add_label (map label_entry pairs) r
                              = fold_left set_entry entries r).
    { subst entries. clear Hnd Hin. induction Hwf as [|[l L] ps (_ & Hl & HL) _ IH]; intros r;
        [reflexivity|].
      cbn [map fold_left fst snd]. rewrite (add_label_entry _ _ _ Hl HL). apply IH. }
    rewrite Hfold.
    assert (Hin' : In (lang, SStr label) entries)
      by (subst entries; apply in_map_iff; now exists (lang, label)).
    assert (Hnd' : NoDup (map fst entries))
      by (subst entries; rewrite map_map; exact Hnd).
    destruct (fold_set_present entries [] lang) as [v Hv].
    { left. now exists (SStr label). }
    rewrite Hv. apply fold_set_sound in Hv as [[Hv _]|Hv]; [|discriminate].
    pose proof (NoDup_map_eq fst _ (lang, v) (lang, SStr label) Hnd' Hv Hin' eq_refl) as Heq.
    now injection Heq as ->.
  - destruct pairs; [destruct Hin|discriminate].
  - apply Forall_forall. intros entry (pair & <- & Hp)%in_map_iff.
    rewrite Forall_forall in Hwf. exact (proj1 (Hwf _ Hp)).
Qed.

Lemma label_shown_witness :
  Menu.statusText_language
    (Menu.parse_labels (String.concat ", " (map label_entry [("en", "English"); ("de", "Deutsch")])))
    (VScalar (SStr "de")) = VScalar (SStr "Deutsch").
Proof.
  apply (label_shown ", " [("en", "English"); ("de", "Deutsch")] "de" "Deutsch").
  - now exists "", " ".
  - repeat constructor.
  - repeat constructor; simpl; intuition discriminate.
  - right. now left.
  - discriminate.
Defined.

(** ** Escape characters of the engine *)

(** Whatever text the engine's own conversion of escape characters puts in,
    the text that [convertEscapeCharacters] returns holds no escape code of
    the plugin; and around a conversion that changes nothing the second
    resolution changes nothing either. *)
Theorem convertEscapeCharacters_resolved (p : pattern) (fuel : nat) (st : Core.state)
    (text : value) :
  (forall alias s,
     Core.convertEscapeCharacters p alias fuel st text = Normal (VScalar (SStr s)) ->
     matches p s = []) /\
  Core.convertEscapeCharacters p (fun v => Normal v) fuel st text
    = Core._replace p fuel st text.
Proof.
  unfold Core.convertEscapeCharacters. split.
  - intros alias s.
    destruct (Core._replace p fuel st text) as [r1| |]; cbn [bind]; try discriminate.
    destruct (alias r1) as [r2| |]; cbn [bind]; try discriminate.
    apply _replace_string_fixpoint.
  - destruct (Core._replace p fuel st text) as [r1| |] eqn:E; cbn [bind]; try reflexivity.
    exact (_replace_again _ _ _ _ _ E).
Qed.

(** ** Switching the language *)

Section Switching.

Variable p : pattern.
Variables (c : ascii) (suffix' : string).
Hypothesis suffix_shape : suffix p = String c suffix'.
Hypothesis suffix_start : is_key_char c = false.
Variable _param_languages : list string.

(** After a registered language whose file has arrived is assigned to the
    [language] property, an escape code resolves to the value of its key in
    the table of that language. *)
Theorem language_switch_resolves fuel n st lang t k v :
  In lang _param_languages ->
  own (Core._data st) lang = Some (Some t) ->
  is_key k = true -> own t k = Some v ->
  matches p (ToString (VScalar v)) = [] ->
  Core._replace p (2 + n)
    (fst (Core.set_language p _param_languages fuel (VScalar (SStr lang)) st))
    (VScalar (SStr (token p k)))
    = Normal (VScalar (SStr (ToString (VScalar v)))).
Proof.
  intros Hin Hdata Hk Hv Hm.
  destruct (set_language_state p _param_languages fuel (VScalar (SStr lang)) st)
    as (Hlang & Hd & _).
  assert (Hc : contains _param_languages (VScalar (SStr lang)) = true)
    by (apply contains_configured; now exists lang).
  rewrite Hc in Hlang.
  unfold Core._replace. rewrite Hlang, Hd. cbn [ToString]. rewrite Hdata.
  cbn [plus Core.while_f].
  rewrite (pass_single_token p c suffix' suffix_shape suffix_start t k Hk). cbn [bind].
  unfold obj_get. rewrite Hv. rewrite (replace_no_match _ _ Hm). reflexivity.
Qed.

End Switching.

Lemma language_switch_resolves_witness :
  Core._replace regex_default 2
    (fst (Core.set_language regex_default ["de"; "en"] 3 (VScalar (SStr "en"))
            (Core.file_loaded "en" doc_harold
               (Core._initialize (Core.initial_state ["de"; "en"])))))
    (VScalar (SStr "#{hero}"))
    = Normal (VScalar (SStr "Harold")).
Proof.
  exact (language_switch_resolves regex_default "}" "" eq_refl eq_refl ["de"; "en"] 3 0
           (Core.file_loaded "en" doc_harold (Core._initialize (Core.initial_state ["de"; "en"])))
           "en" table_harold "hero" (SStr "Harold")
           (or_intror (or_introl eq_refl)) eq_refl eq_refl eq_refl eq_refl).
Defined.
